(** * Receipt_Spendle: field extraction, store normalisation and source
      reconciliation

    A shallow embedding of the parsing and reconciliation core of the
    receipt backend ([app/parser.py], [app/ph_rules.py] and
    [resolve_fields] of [app/api.py]) together with the properties its
    specification states about it.

    Conventions of the embedding.

    - A Python [str] is the list of the bytes of its UTF-8 encoding
      ([str := list ascii]).  Substring search and replacement on the
      encoding agree with the same operations on code points, as UTF-8 is
      self-synchronising.  Case mapping, the classes [\s], [\w], [\d] and
      [str.strip] are those of the ASCII range; bytes above 127 are
      caseless and belong to none of these classes.
    - A Python [float] is an exact rational ([Q]); the one place where the
      code can meet a NaN it is kept apart ([pyfloat]).
    - The regular expressions are written in a small abstract syntax and run
      by a backtracking matcher with the priorities of Python's [re]
      (leftmost match, greedy repetition, ordered alternation).
    - [dateutil], [Levenshtein] and [difflib] are libraries, not code of the
      repository: the functions taken from them are parameters. *)

From Stdlib Require Import List Ascii String Bool Arith Lia ZArith QArith Qabs
  Qminmax Permutation Lqa.
Import ListNotations.

Set Implicit Arguments.
Open Scope string_scope.
Open Scope list_scope.
Open Scope nat_scope.

(* ================================================================== *)
(** * Strings *)
(* ================================================================== *)

Definition str := list ascii.

Definition lit (x : string) : str := list_ascii_of_string x.
Coercion lit : string >-> str.

Definition lits (xs : list string) : list str := map lit xs.

Definition str_eqb (a b : str) : bool :=
  if list_eq_dec ascii_dec a b then true else false.

Definition code (c : ascii) : nat := nat_of_ascii c.

Definition between (lo hi : nat) (c : ascii) : bool :=
  (lo <=? code c) && (code c <=? hi).

Definition is_upper (c : ascii) : bool := between 65 90 c.
Definition is_lower (c : ascii) : bool := between 97 122 c.
Definition is_alpha (c : ascii) : bool := is_upper c || is_lower c.
Definition is_digit (c : ascii) : bool := between 48 57 c.

(** [str.isspace] on the ASCII range: TAB, LF, VT, FF, CR, FS, GS, RS, US
    and the blank. *)
Definition is_space (c : ascii) : bool :=
  between 9 13 c || between 28 32 c.

(** [\w] on the ASCII range. *)
Definition is_word (c : ascii) : bool :=
  is_alpha c || is_digit c || (code c =? 95).

Definition to_upper (c : ascii) : ascii :=
  if is_lower c then ascii_of_nat (code c - 32) else c.

Definition to_lower (c : ascii) : ascii :=
  if is_upper c then ascii_of_nat (code c + 32) else c.

Definition upper (s : str) : str := map to_upper s.
Definition lower (s : str) : str := map to_lower s.

(** [len(s)]: the number of code points, that is of bytes that are not
    UTF-8 continuation bytes. *)
Definition py_len (s : str) : nat :=
  List.length (filter (fun c => negb (between 128 191 c)) s).

Fixpoint startswith (p s : str) : bool :=
  match p, s with
  | [], _ => true
  | a :: p', b :: s' => Ascii.eqb a b && startswith p' s'
  | _ :: _, [] => false
  end.

(** [p in s]. *)
Fixpoint contains (p s : str) : bool :=
  startswith p s ||
  match s with
  | [] => false
  | _ :: s' => contains p s'
  end.

(** [any(k in s for k in keys)]. *)
Definition any_in (keys : list str) (s : str) : bool :=
  existsb (fun k => contains k s) keys.

Fixpoint lstrip (s : str) : str :=
  match s with
  | c :: s' => if is_space c then lstrip s' else s
  | [] => []
  end.

Definition rstrip (s : str) : str := rev (lstrip (rev s)).

(** [s.strip()]. *)
Definition strip (s : str) : str := rstrip (lstrip s).

(** [s.strip(chars)], the characters of [chars] given one by one (each a
    code point, hence a short byte string). *)
Fixpoint lstrip_chars (chars : list str) (fuel : nat) (s : str) : str :=
  match fuel with
  | 0 => s
  | S fuel' =>
      match find (fun k => startswith k s) chars with
      | Some k => lstrip_chars chars fuel' (skipn (List.length k) s)
      | None => s
      end
  end.

Definition strip_chars (chars : list str) (s : str) : str :=
  let l := lstrip_chars chars (List.length s) s in
  rev (lstrip_chars (map (@rev ascii) chars) (List.length l) (rev l)).

(** [s.replace(old, new)] for a non-empty [old]: the occurrences are
    replaced from the left and do not overlap.  [skip] counts the characters
    of an occurrence still to be passed over. *)
Fixpoint replace_go (old new : str) (skip : nat) (s : str) : str :=
  match s with
  | [] => []
  | c :: t =>
      match skip with
      | S k => replace_go old new k t
      | 0 =>
          if startswith old s
          then new ++ replace_go old new (List.length old - 1) t
          else c :: replace_go old new 0 t
      end
  end.

Definition replace (old new : str) (s : str) : str :=
  match old with
  | [] => s
  | _ => replace_go old new 0 s
  end.

(** [s.splitlines()] on the ASCII range: a line ends at LF, VT, FF, CR (CR LF
    counting once), FS, GS or RS. *)
Definition is_linebreak (c : ascii) : bool :=
  between 10 13 c || between 28 30 c.

Fixpoint splitlines_go (cur : str) (s : str) : list str :=
  match s with
  | [] => match cur with [] => [] | _ => [rev cur] end
  | c :: t =>
      if is_linebreak c then
        rev cur ::
        match t with
        | d :: t' =>
            if (code c =? 13) && (code d =? 10)
            then splitlines_go [] t'
            else splitlines_go [] t
        | [] => []
        end
      else splitlines_go (c :: cur) t
  end.

Definition splitlines (s : str) : list str := splitlines_go [] s.

(** [[l.strip() for l in text.splitlines() if l.strip()]]. *)
Definition nonblank_lines (text : str) : list str :=
  map strip (filter (fun l => negb (str_eqb (strip l) [])) (splitlines text)).

(* ================================================================== *)
(** * Regular expressions *)
(* ================================================================== *)

Inductive regex : Type :=
| Eps
| Chr (p : ascii -> bool)
| Seq (r1 r2 : regex)
| Alt (r1 r2 : regex)
| Star (r : regex)
| Wb
| Bos.

(** A position in the subject: the characters before it, nearest first, and
    the characters from it on. *)
Definition pos := (str * str)%type.

Definition word_before (st : pos) : bool :=
  match fst st with c :: _ => is_word c | [] => false end.

Definition word_after (st : pos) : bool :=
  match snd st with c :: _ => is_word c | [] => false end.

(** The greedy loop of [r*]: one more round of [step] as long as it moves
    on, then the rounds already made. *)
Fixpoint star_iter (step : pos -> list pos) (n : nat) (st : pos)
  : list pos :=
  match n with
  | 0%nat => [st]
  | S n' =>
      flat_map
        (fun st' =>
           if List.length (snd st') <? List.length (snd st)
           then star_iter step n' st' else [])
        (step st) ++ [st]
  end.

(** [run r st]: the positions at which a match of [r] begun at [st] can end,
    in the order in which a backtracking matcher tries them. *)
Fixpoint run (r : regex) (st : pos) : list pos :=
  match r with
  | Eps => [st]
  | Chr p =>
      match snd st with
      | c :: t => if p c then [(c :: fst st, t)] else []
      | [] => []
      end
  | Seq r1 r2 => flat_map (run r2) (run r1 st)
  | Alt r1 r2 => run r1 st ++ run r2 st
  | Star r' => star_iter (run r') (List.length (snd st)) st
  | Wb => if xorb (word_before st) (word_after st) then [st] else []
  | Bos => match fst st with [] => [st] | _ :: _ => [] end
  end.

(** The characters a pattern can consume. *)
Fixpoint cls (r : regex) (c : ascii) : bool :=
  match r with
  | Chr p => p c
  | Seq r1 r2 | Alt r1 r2 => cls r1 c || cls r2 c
  | Star r' => cls r' c
  | Eps | Wb | Bos => false
  end.

Definition Opt (r : regex) : regex := Alt r Eps.
Definition Plus (r : regex) : regex := Seq r (Star r).

Fixpoint Seqs (rs : list regex) : regex :=
  match rs with
  | [] => Eps
  | [r] => r
  | r :: rs' => Seq r (Seqs rs')
  end.

Fixpoint Alts (rs : list regex) : regex :=
  match rs with
  | [] => Chr (fun _ => false)
  | [r] => r
  | r :: rs' => Alt r (Alts rs')
  end.

(** A literal, and a literal under [re.IGNORECASE]. *)
Definition Lit (s : str) : regex :=
  Seqs (map (fun k => Chr (Ascii.eqb k)) s).

Definition LitI (s : str) : regex :=
  Seqs (map (fun k => Chr (fun c => Ascii.eqb (to_lower c) (to_lower k))) s).

(** [r{n}] and the greedy [r{n,m}] written [Rep r n (m - n)]. *)
Fixpoint Exactly (r : regex) (n : nat) : regex :=
  match n with
  | 0 => Eps
  | S n' => Seq r (Exactly r n')
  end.

Fixpoint Upto (r : regex) (n : nat) : regex :=
  match n with
  | 0 => Eps
  | S n' => Opt (Seq r (Upto r n'))
  end.

Definition Rep (r : regex) (n extra : nat) : regex :=
  Seq (Exactly r n) (Upto r extra).

Definition AtLeast (r : regex) (n : nat) : regex :=
  Seq (Exactly r n) (Star r).

Definition Digit : regex := Chr is_digit.
Definition Space : regex := Chr is_space.

(** The text between two positions of one subject. *)
Definition span (a b : pos) : str :=
  firstn (List.length (snd a) - List.length (snd b)) (snd a).

(** [re.match] at a position, for a pattern [pre(grp)]: the start and the end
    of group 1. *)
Definition match_at (pre grp : regex) (st : pos) : option (pos * pos) :=
  hd_error (flat_map (fun a => map (pair a) (run grp a)) (run pre st)).

(** [re.search]: the leftmost position with a match. *)
Fixpoint search_go (pre grp : regex) (before after : str)
  : option (pos * pos * pos) :=
  match match_at pre grp (before, after) with
  | Some (a, b) => Some ((before, after), a, b)
  | None =>
      match after with
      | [] => None
      | c :: t => search_go pre grp (c :: before) t
      end
  end.

Definition search (pre grp : regex) (s : str) : option (pos * pos * pos) :=
  search_go pre grp [] s.

(** [m.group(1)] and [m.start()] of a search. *)
Definition group1 (m : pos * pos * pos) : str :=
  let '(_, a, b) := m in span a b.

Definition match_start (m : pos * pos * pos) : nat :=
  let '(s, _, _) := m in List.length (fst s).

Definition search_group (pre grp : regex) (s : str) : option str :=
  option_map group1 (search pre grp s).

Definition matches (r : regex) (s : str) : bool :=
  match search Eps r s with Some _ => true | None => false end.

(** [re.finditer] as the list of the groups 1: after a match the scan goes
    on where the match ended; [skip] counts the matched characters still to
    be passed over. *)
Fixpoint finditer_go (pre grp : regex) (skip : nat) (before after : str)
  : list str :=
  match after with
  | [] => []
  | c :: t =>
      match skip with
      | S k => finditer_go pre grp k (c :: before) t
      | 0 =>
          match match_at pre grp (before, after) with
          | Some (a, b) =>
              span a b ::
              finditer_go pre grp
                (List.length after - List.length (snd b) - 1) (c :: before) t
          | None => finditer_go pre grp 0 (c :: before) t
          end
      end
  end.

Definition finditer (pre grp : regex) (s : str) : list str :=
  finditer_go pre grp 0 [] s.

(** [re.sub(r, repl, s)] for a constant replacement. *)
Fixpoint sub_go (r : regex) (repl : str) (skip : nat) (before after : str)
  : str :=
  match after with
  | [] =>
      match skip, hd_error (run r (before, [])) with
      | 0, Some _ => repl
      | _, _ => []
      end
  | c :: t =>
      match skip with
      | S k => sub_go r repl k (c :: before) t
      | 0 =>
          match hd_error (run r (before, after)) with
          | Some b =>
              match List.length after - List.length (snd b) with
              | 0 => repl ++ c :: sub_go r repl 0 (c :: before) t
              | S k => repl ++ sub_go r repl k (c :: before) t
              end
          | None => c :: sub_go r repl 0 (c :: before) t
          end
      end
  end.

Definition sub (r : regex) (repl : str) (s : str) : str :=
  sub_go r repl 0 [] s.


(* ================================================================== *)
(** * Numbers and generic list functions *)
(* ================================================================== *)

Open Scope Q_scope.

Definition Qltb (a b : Q) : bool := negb (Qle_bool b a).

(** [a > b]. *)
Definition Qltb_flip (a b : Q) : bool := Qltb b a.

Definition Qsum (l : list Q) : Q := fold_left Qplus l 0.

Definition Qnat (n : nat) : Q := inject_Z (Z.of_nat n).

(** A float that can be a NaN. *)
Inductive pyfloat : Type :=
| Fin (q : Q)
| NaN.

(** [a > b] on floats: every comparison with a NaN is false. *)
Definition pyfloat_gtb (a b : pyfloat) : bool :=
  match a, b with
  | Fin x, Fin y => Qltb y x
  | _, _ => false
  end.

(** The decimal literals [float()] is given here: an optional sign, digits,
    an optional fraction.  [None] stands for the [ValueError]. *)
Fixpoint digits_value (acc : Z) (s : str) : option Z :=
  match s with
  | [] => Some acc
  | c :: t =>
      if is_digit c
      then digits_value (10 * acc + Z.of_nat (code c - 48))%Z t
      else None
  end.

Fixpoint split_at_dot (s : str) : str * option str :=
  match s with
  | [] => ([], None)
  | c :: t =>
      if Ascii.eqb c "."%char then ([], Some t)
      else let '(a, b) := split_at_dot t in (c :: a, b)
  end.

Definition unsigned_float (s : str) : option Q :=
  let '(ip, fp) := split_at_dot s in
  let fp := match fp with Some f => f | None => [] end in
  match ip ++ fp with
  | [] => None
  | ds =>
      match digits_value 0 ds with
      | Some n => Some (n # Z.to_pos (10 ^ Z.of_nat (List.length fp)))
      | None => None
      end
  end.

Definition to_float (s : str) : option Q :=
  match s with
  | c :: t =>
      if Ascii.eqb c "-"%char then option_map Qopp (unsigned_float t)
      else if Ascii.eqb c "+"%char then unsigned_float t
      else unsigned_float s
  | [] => None
  end.

(** [max(l, key=key)]: the first element whose key no later one exceeds. *)
Fixpoint max_from (A K : Type) (gtb : K -> K -> bool) (key : A -> K)
  (best : A) (l : list A) : A :=
  match l with
  | [] => best
  | x :: t =>
      if gtb (key x) (key best) then max_from gtb key x t
      else max_from gtb key best t
  end.

Definition max_by (A K : Type) (gtb : K -> K -> bool) (key : A -> K)
  (l : list A) : option A :=
  match l with
  | [] => None
  | x :: t => Some (max_from gtb key x t)
  end.

(** [sorted(l, key=key)]: a stable sort. *)
Fixpoint insert_by (A K : Type) (leb : K -> K -> bool) (key : A -> K)
  (x : A) (l : list A) : list A :=
  match l with
  | [] => [x]
  | y :: t =>
      if leb (key x) (key y) then x :: y :: t
      else y :: insert_by leb key x t
  end.

Definition sorted_by (A K : Type) (leb : K -> K -> bool) (key : A -> K)
  (l : list A) : list A :=
  fold_right (insert_by leb key) [] l.

Fixpoint first_some (A B : Type) (f : A -> option B) (l : list A)
  : option B :=
  match l with
  | [] => None
  | x :: t =>
      match f x with
      | Some y => Some y
      | None => first_some f t
      end
  end.

(** [enumerate(l)]. *)
Fixpoint enumerate_from (A : Type) (i : nat) (l : list A) : list (nat * A) :=
  match l with
  | [] => []
  | x :: t => (i, x) :: enumerate_from (S i) t
  end.

Definition enumerate (A : Type) (l : list A) : list (nat * A) :=
  enumerate_from 0 l.

Definition Zmin_list (d : Z) (l : list Z) : Z :=
  match l with
  | [] => d
  | x :: t => fold_left Z.min t x
  end.

Definition Zmax_list (d : Z) (l : list Z) : Z :=
  match l with
  | [] => d
  | x :: t => fold_left Z.max t x
  end.

(* ================================================================== *)
(** * parser.py: configuration *)
(* ================================================================== *)

(** [AMT]: an optional currency mark and blanks, then group 1. *)
Definition AMT_pre : regex :=
  Seq (Opt (Alts [Lit "₱"; Lit "PHP"; Lit "Php"; Lit "php"])) (Star Space).

Definition AMT_grp : regex :=
  Alt (Seqs [Rep Digit 1 2;
             Star (Seq (Lit ",") (Exactly Digit 3));
             Seq (Lit ".") (Exactly Digit 2)])
      (Seqs [Plus Digit; Seq (Lit ".") (Exactly Digit 2)]).

Definition TOTAL_KEYS : list str := lits
  ["grand total"; "total amount due"; "amount due"; "total due";
   "total amount"; "total payable"; "amount payable"; "balance due";
   "balance"; "total"; "amount to pay"; "net amount due"; "net amount";
   "total sales"; "amount you owe"; "Total"].

Definition LOW_PRIORITY_KEYS : list str := lits
  ["cash"; "cash tendered"; "tendered"; "payment"; "paid"; "change"; "sukli"].

Definition SKIP_STORE : list str := lits
  ["receipt"; "invoice"; "official"; "sales"; "or#"; "tin"; "vat"; "pos";
   "cashier"; "terminal"].

(** [_word]: [[A-Za-z][A-Za-z\-&' ]{2,}]. *)
Definition word_tail (c : ascii) : bool :=
  is_alpha c || existsb (Ascii.eqb c) (lit "-&' ").

Definition _word : regex := Seq (Chr is_alpha) (AtLeast (Chr word_tail) 2).

(** [_currency], under [re.IGNORECASE]. *)
Definition _currency : regex :=
  Alts [LitI "php"; LitI "₱"; LitI "php."; LitI "peso"; LitI "amount:"].

Definition DATE_HINTS : list str := lits
  ["date"; "txn date"; "transaction date"; "billing date"; "issued";
   "due date"; "period"; "period covered"; "statement date"].

Definition date_sep : regex :=
  Chr (fun c => Ascii.eqb c "-"%char || Ascii.eqb c "/"%char).

Definition month_names : list string :=
  ["Jan"; "Feb"; "Mar"; "Apr"; "May"; "Jun"; "Jul"; "Aug"; "Sep"; "Sept";
   "Oct"; "Nov"; "Dec"].

(** [DATE_PATTERNS], each one group, used under [re.IGNORECASE]:
    YYYY-MM-DD, then MM/DD/YYYY or DD/MM/YYYY, then a month name. *)
Definition ISO_DATE : regex :=
  Seqs [Exactly Digit 4; date_sep; Rep Digit 1 1; date_sep; Rep Digit 1 1].

Definition NUMERIC_DATE : regex :=
  Seqs [Rep Digit 1 1; date_sep; Rep Digit 1 1; date_sep; Rep Digit 2 2].

Definition MONTH_NAME_DATE : regex :=
  Seqs [Alts (map (fun m => LitI (lit m)) month_names);
        Star (Chr is_alpha); Plus Space; Rep Digit 1 1; Opt (Lit ",");
        Plus Space; Rep Digit 2 2].

Definition DATE_PATTERNS : list regex :=
  [ISO_DATE; NUMERIC_DATE; MONTH_NAME_DATE].

(* ================================================================== *)
(** * parser.py: helpers and the text-only total *)
(* ================================================================== *)

(** [_norm]: [re.sub(r"\s{2,}", " ", s or "").strip()]. *)
Definition _norm (s : str) : str := strip (sub (AtLeast Space 2) " " s).

(** [float(m.group(1).replace(",", ""))]. *)
Definition amount_value (g : str) : option Q := to_float (replace "," "" g).

Definition _is_low_priority_line (s : str) : bool :=
  any_in LOW_PRIORITY_KEYS (lower s).

Definition _line_currency_score (line : str) : Q :=
  if matches _currency line then 1 else 0.

Definition _line_totalish_score (line : str) : Q :=
  let low := lower line in
  (if any_in TOTAL_KEYS low then 4 else 0) +
  (if any_in (lits ["due"; "payable"; "amount due"; "amount payable"; "pay"])
        low
   then 15 # 10 else 0).

Definition _score_amount_candidate (idx : nat) (line : str) (value : Q)
  (lines : list str) : Q :=
  let score := 0 + _line_totalish_score line + _line_currency_score line in
  let score :=
    if (idx + 1 <? List.length lines)%nat then
      let nxt := nth (idx + 1) lines [] in
      score + (8 # 10) * _line_totalish_score nxt
            + (4 # 10) * _line_currency_score nxt
    else score in
  let score :=
    if (0 <? idx)%nat then
      let prv := nth (idx - 1) lines [] in
      score + (6 # 10) * _line_totalish_score prv
            + (3 # 10) * _line_currency_score prv
    else score in
  let score :=
    if (0 <? List.length lines)%nat then
      let rel_pos := Qnat idx / Qnat (List.length lines) in
      score + Qmax 0 (2 * (1 - rel_pos))
    else score in
  let score := score + Qmin value 50000 / 20000 in
  if _is_low_priority_line line then score - 3 else score.

(** The running best of [_best_amount]: [best_val] and [best_score], the
    latter [None] while it is minus infinity. *)
Definition best_state := (option Q * option Q)%type.

(** A match of value [val] and of score [score] against the running
    best. *)
Definition best_update (st : best_state) (m : Q * Q) : best_state :=
  let '(val, score) := m in
  let '(best_val, best_score) := st in
  let better :=
    match best_score with
    | None => true
    | Some bs =>
        Qltb bs score ||
        (Qltb (Qabs (score - bs)) (1 # 1000000) &&
         match best_val with
         | None => true
         | Some bv => Qltb bv val
         end)
    end in
  if better then (Some val, Some score) else st.

Definition best_step (lines : list str) (idx : nat) (line : str)
  (st : best_state) (g : str) : best_state :=
  match amount_value g with
  | None => st
  | Some val =>
      best_update st (val, _score_amount_candidate idx line val lines)
  end.

Definition best_line (lines : list str) (st : best_state)
  (il : nat * str) : best_state :=
  let '(idx, line) := il in
  if _is_low_priority_line line then st
  else fold_left (best_step lines idx line) (finditer AMT_pre AMT_grp line) st.

Definition _best_amount (lines : list str) : option Q :=
  fst (fold_left (best_line lines) (enumerate lines) (None, None)).

(** The first pass of [extract_total_textonly]: the first amount on, or
    right below, a line with a total keyword. *)
Definition keyword_line_amount (lines : list str) (il : nat * str)
  : option Q :=
  let '(i, line) := il in
  if _is_low_priority_line line then None
  else if any_in TOTAL_KEYS (lower line) then
    let m := search_group AMT_pre AMT_grp line in
    let m :=
      match m with
      | Some _ => m
      | None =>
          if (i + 1 <? List.length lines)%nat &&
             negb (_is_low_priority_line (nth (i + 1) lines []))
          then search_group AMT_pre AMT_grp (nth (i + 1) lines [])
          else None
      end in
    match m with
    | Some g => amount_value g
    | None => None
    end
  else None.

Definition extract_total_textonly (text : str) : option Q :=
  let lines := nonblank_lines text in
  match first_some (keyword_line_amount lines) (enumerate lines) with
  | Some v => Some v
  | None => _best_amount lines
  end.

(* ================================================================== *)
(** * parser.py: the store and the date *)
(* ================================================================== *)

Definition store_of_line (line : str) : option str :=
  let cand := strip_chars (lits ["-"; "—"; ":"; "|"; " "]) line in
  if (py_len cand <? 3)%nat then None
  else if any_in SKIP_STORE (lower cand) then None
  else if matches _word cand
  then Some (_norm (replace "0/" "Q" (replace "|" "I" cand)))
  else None.

Definition extract_store (text : str) : option str :=
  first_some store_of_line (firstn 12 (nonblank_lines text)).

(** The truth value of an optional string: [None] and the empty string are
    false. *)
Definition is_truthy (o : option str) : bool :=
  match o with
  | Some (_ :: _) => true
  | _ => false
  end.

Definition truthy (o : option str) : option str :=
  if is_truthy o then o else None.

Section DateParser.

(** [_try_parse_date]: [dateutil]'s fuzzy, day-first parser followed by
    [isoformat], [None] when it raises. *)
Variable _try_parse_date : str -> option str.

(** The patterns tried in order on one string, until a match parses. *)
Definition date_in (look : str) : option str :=
  first_some
    (fun pat =>
       match search_group Eps pat look with
       | Some g => truthy (_try_parse_date g)
       | None => None
       end)
    DATE_PATTERNS.

(** The loop over the lines carrying a date hint: the line, then the one
    below it. *)
Fixpoint hinted_date (lines : list str) : option str :=
  match lines with
  | [] => None
  | line :: rest =>
      let below := match rest with l :: _ => l | [] => [] end in
      match
        (if any_in DATE_HINTS (lower line)
         then first_some date_in [line; below] else None)
      with
      | Some iso => Some iso
      | None => hinted_date rest
      end
  end.

Definition extract_date (text : str) : option str :=
  match hinted_date (nonblank_lines text) with
  | Some iso => Some iso
  | None => date_in text
  end.

End DateParser.

(* ================================================================== *)
(** * parser.py: the layout-aware total *)
(* ================================================================== *)

(** A word box as [ocr_image_bytes] builds it. *)
Record Word : Type := mkWord {
  w_text : str;
  w_conf : pyfloat;
  w_left : Z;
  w_top : Z;
  w_width : Z;
  w_height : Z;
  w_block_num : Z;
  w_par_num : Z;
  w_line_num : Z;
  w_word_num : Z
}.

Record Token : Type := mkToken {
  t_text : str;
  t_conf : Q;
  t_left : Z;
  t_top : Z;
  t_width : Z;
  t_height : Z;
  t_block_num : Z;
  t_par_num : Z;
  t_line_num : Z;
  t_word_num : Z
}.

Definition t_right (t : Token) : Z := (t_left t + t_width t)%Z.
Definition t_bottom (t : Token) : Z := (t_top t + t_height t)%Z.
Definition t_center_x (t : Token) : Q :=
  inject_Z (t_left t) + inject_Z (t_width t) / 2.
Definition t_center_y (t : Token) : Q :=
  inject_Z (t_top t) + inject_Z (t_height t) / 2.

Definition token_of_word (w : Word) : option Token :=
  let text := strip (w_text w) in
  match text with
  | [] => None
  | _ =>
      Some (mkToken text
              (match w_conf w with Fin q => q | NaN => 0 end)
              (w_left w) (w_top w)
              (Z.max (w_width w) 1) (Z.max (w_height w) 1)
              (w_block_num w) (w_par_num w) (w_line_num w) (w_word_num w))
  end.

Definition line_key := (Z * Z * Z)%type.

Definition line_key_eqb (a b : line_key) : bool :=
  let '(a1, a2, a3) := a in
  let '(b1, b2, b3) := b in
  (a1 =? b1)%Z && (a2 =? b2)%Z && (a3 =? b3)%Z.

(** [line_map.setdefault(key, []).append(tok)] on a dictionary kept in
    insertion order. *)
Fixpoint line_map_add (key : line_key) (tok : Token)
  (m : list (line_key * list Token)) : list (line_key * list Token) :=
  match m with
  | [] => [(key, [tok])]
  | (k, toks) :: rest =>
      if line_key_eqb k key then (k, toks ++ [tok]) :: rest
      else (k, toks) :: line_map_add key tok rest
  end.

Definition build_line_map (tokens : list Token)
  : list (line_key * list Token) :=
  fold_left
    (fun m tok =>
       line_map_add (t_block_num tok, t_par_num tok, t_line_num tok) tok m)
    tokens [].

Definition ZZ_leb (a b : Z * Z) : bool :=
  (fst a <? fst b)%Z || ((fst a =? fst b)%Z && (snd a <=? snd b)%Z).

Record LineInfo : Type := mkLineInfo {
  li_index : nat;
  li_text : str;
  li_tokens : list Token;
  li_y_top : Z;
  li_y_bottom : Z;
  li_y_mid : Q;
  li_x_mid : Q;
  li_height_mean : Q;
  li_total_centers : list Q
}.

Definition join_space (parts : list str) : str :=
  match parts with
  | [] => []
  | p :: rest => p ++ flat_map (fun q => " "%char :: q) rest
  end.

Definition line_info (il : nat * (line_key * list Token)) : LineInfo :=
  let '(idx, (_, toks)) := il in
  let line_tokens := sorted_by Z.leb t_left toks in
  let line_text :=
    join_space
      (filter (fun x => negb (str_eqb x []))
         (map (fun t => _norm (t_text t)) line_tokens)) in
  let x_min := Zmin_list 0 (map t_left line_tokens) in
  let x_max := Zmax_list 0 (map t_right line_tokens) in
  let y_top := Zmin_list 0 (map t_top line_tokens) in
  let y_bottom := Zmax_list 0 (map t_bottom line_tokens) in
  let total_tokens :=
    filter (fun t => any_in TOTAL_KEYS (lower (t_text t))) line_tokens in
  mkLineInfo idx line_text line_tokens y_top y_bottom
    (inject_Z (y_top + y_bottom) / 2)
    (inject_Z (x_min + x_max) / 2)
    (Qsum (map (fun t => inject_Z (t_height t)) line_tokens)
       / Qnat (List.length line_tokens))
    (map t_center_x total_tokens).

(** [statistics.median] of a non-empty list of integers. *)
Definition median (l : list Z) : Q :=
  let s := sorted_by Z.leb (fun x => x) l in
  let n := List.length s in
  if Nat.odd n then inject_Z (nth (n / 2) s 0%Z)
  else inject_Z (nth (n / 2 - 1) s 0%Z + nth (n / 2) s 0%Z) / 2.

Definition not_amount_char (c : ascii) : bool :=
  negb (is_digit c || Ascii.eqb c "."%char || Ascii.eqb c ","%char).

(** [re.sub(r"[^0-9.,]", "", s)]. *)
Definition amount_chars (s : str) : str := sub (Chr not_amount_char) "" s.

Definition has_digit (t : Token) : bool := existsb is_digit (t_text t).

(** The loop of [_tokens_for_amount]: [acc] and [selected], until the
    target is spelt out. *)
Fixpoint tokens_for_amount_go (target acc : str) (selected : list Token)
  (line_tokens : list Token) : list Token :=
  match line_tokens with
  | [] => selected
  | tok :: rest =>
      let cleaned := amount_chars (t_text tok) in
      match cleaned with
      | [] => tokens_for_amount_go target acc selected rest
      | _ =>
          let candidate := acc ++ cleaned in
          if startswith candidate target then
            if str_eqb candidate target then selected ++ [tok]
            else tokens_for_amount_go target candidate (selected ++ [tok]) rest
          else tokens_for_amount_go target acc selected rest
      end
  end.

Definition _tokens_for_amount (line_tokens : list Token) (match_str : str)
  : list Token :=
  let target := amount_chars match_str in
  match target with
  | [] => filter has_digit line_tokens
  | _ =>
      match tokens_for_amount_go target [] [] line_tokens with
      | [] => filter has_digit line_tokens
      | selected => selected
      end
  end.

Record AmountCandidate : Type := mkAmountCandidate {
  ac_value : Q;
  ac_line : LineInfo;
  ac_tokens : list Token;
  ac_bbox : Z * Z * Z * Z;
  ac_center_x : Q;
  ac_center_y : Q;
  ac_avg_height : Q;
  ac_conf : Q
}.

Definition amount_candidate (info : LineInfo) (g : str)
  : option AmountCandidate :=
  match amount_value g with
  | None => None
  | Some value =>
      match _tokens_for_amount (li_tokens info) g with
      | [] => None
      | subset =>
          let left := Zmin_list 0 (map t_left subset) in
          let right := Zmax_list 0 (map t_right subset) in
          let top := Zmin_list 0 (map t_top subset) in
          let bottom := Zmax_list 0 (map t_bottom subset) in
          let n := Qnat (List.length subset) in
          Some (mkAmountCandidate value info subset
                  (left, top, right, bottom)
                  (inject_Z (left + right) / 2)
                  (inject_Z (top + bottom) / 2)
                  (Qsum (map (fun t => inject_Z (t_height t)) subset) / n)
                  (Qsum (map t_conf subset) / n))
      end
  end.

Definition line_candidates (info : LineInfo) : list AmountCandidate :=
  match li_text info with
  | [] => []
  | text =>
      flat_map
        (fun g => match amount_candidate info g with
                  | Some c => [c]
                  | None => []
                  end)
        (finditer AMT_pre AMT_grp text)
  end.

Definition Qmin_list (d : Q) (l : list Q) : Q :=
  match l with
  | [] => d
  | x :: t => fold_left Qmin t x
  end.

Definition nat_dist (a b : nat) : nat := (a - b) + (b - a).

(** What one keyword line adds for a candidate on line [idx]. *)
Definition proximity (median_height : Q) (cand : AmountCandidate)
  (idx : nat) (tot_line : LineInfo) : Q :=
  let diff_idx := nat_dist idx (li_index tot_line) in
  let base :=
    match diff_idx with
    | 0%nat => 6
    | 1%nat => 45 # 10
    | 2%nat => 3
    | _ => Qmax 0 (3 - (7 # 10) * Qnat diff_idx)
    end in
  let vert_gap :=
    Qabs (ac_center_y cand - li_y_mid tot_line) / median_height in
  let base := base - Qmin vert_gap 4 in
  let centers :=
    match li_total_centers tot_line with
    | [] => [li_x_mid tot_line]
    | cs => cs
    end in
  let horiz_gap :=
    Qmin_list 0 (map (fun cx => Qabs (ac_center_x cand - cx)) centers) in
  let '(l, _, r, _) := ac_bbox cand in
  let denom := Qmax (inject_Z (r - l)) median_height in
  base - Qmin (horiz_gap / denom) 4.

Definition _candidate_score (median_height : Q) (line_count : nat)
  (tot_lines : list LineInfo) (cand : AmountCandidate) : Q :=
  let line := ac_line cand in
  let idx := li_index line in
  let score := 0 + _line_totalish_score (li_text line) * (12 # 10) in
  let score := score + _line_currency_score (li_text line) in
  let score := score + Qmin (ac_conf cand) 95 / 25 in
  let height_ratio := ac_avg_height cand / median_height in
  let score :=
    if Qltb (11 # 10) height_ratio
    then score + Qmin (height_ratio - 1) (25 # 10) else score in
  let rel_pos :=
    if (1 <? line_count)%nat then Qnat idx / Qnat (line_count - 1) else 1 in
  let score := score + Qmax 0 ((22 # 10) * (1 - rel_pos)) in
  let score :=
    match tot_lines with
    | [] => score
    | _ =>
        score +
        fold_left
          (fun best_prox tot_line =>
             Qmax best_prox (proximity median_height cand idx tot_line))
          tot_lines (-5)
    end in
  if _is_low_priority_line (li_text line) then score - 4 else score.

Definition extract_total_layout (words : list Word) (full_text : str)
  : option Q :=
  match words with
  | [] => extract_total_textonly full_text
  | _ =>
      let tokens :=
        flat_map (fun w => match token_of_word w with
                           | Some t => [t]
                           | None => []
                           end) words in
      match tokens with
      | [] => extract_total_textonly full_text
      | _ =>
          let line_map := build_line_map tokens in
          let ordered :=
            sorted_by ZZ_leb
              (fun kv : line_key * list Token =>
                 (Zmin_list 0 (map t_top (snd kv)),
                  Zmin_list 0 (map t_left (snd kv))))
              line_map in
          let line_infos := map line_info (enumerate ordered) in
          let all_heights :=
            flat_map
              (fun info =>
                 filter (fun h => (0 <? h)%Z)
                   (map t_height (li_tokens info)))
              line_infos in
          match line_infos with
          | [] => extract_total_textonly full_text
          | _ =>
              let median_height :=
                match all_heights with
                | [] => 1
                | _ => median all_heights
                end in
              let median_height :=
                if Qeq_bool median_height 0 then 1 else median_height in
              let line_count := List.length line_infos in
              let tot_lines :=
                filter (fun info => any_in TOTAL_KEYS (lower (li_text info)))
                  line_infos in
              let candidates := flat_map line_candidates line_infos in
              match
                max_by Qltb_flip
                  (_candidate_score median_height line_count tot_lines)
                  candidates
              with
              | Some best_candidate => Some (ac_value best_candidate)
              | None => extract_total_textonly full_text
              end
          end
      end
  end.

(* ================================================================== *)
(** * parser.py: the public functions *)
(* ================================================================== *)

(** The record [ocr_image_bytes] returns, as far as the parser reads it. *)
Record OcrRecord : Type := mkOcrRecord {
  rec_text : str;
  rec_words : list Word;
  rec_amount_pass : str
}.

Definition parsed := (option str * option Q * option str)%type.

Section Parse.

Variable _try_parse_date : str -> option str.

Definition parse_fields_from_ocr (rec : OcrRecord) : parsed :=
  let text := rec_text rec in
  let amount_source :=
    match rec_amount_pass rec with
    | [] => text
    | a => a
    end in
  (extract_store text,
   extract_total_layout (rec_words rec) amount_source,
   extract_date _try_parse_date text).

Definition parse_fields (ocr_text : str) : parsed :=
  (extract_store ocr_text,
   extract_total_textonly ocr_text,
   extract_date _try_parse_date ocr_text).

End Parse.

(* ================================================================== *)
(** * ph_rules.py: the dictionary *)
(* ================================================================== *)

Definition FOOD_BRANDS : list str := lits
  ["JOLLIBEE"; "MCDONALD"; "MCDONALD'S"; "KFC"; "CHOWKING"; "GREENWICH";
   "MANG INASAL"; "SHAKEY'S"; "BONCHON"; "STARBUCKS"; "GONG CHA"; "CHATIME";
   "7-ELEVEN"; "MINISTOP"; "FAMILYMART"].

Definition GROCERY_BRANDS : list str := lits
  ["SM SUPERMARKET"; "SM HYPERMARKET"; "PUREGOLD"; "ROBINSONS SUPERMARKET";
   "WALTERMART"; "LANDERS"; "S&R"; "GMALL"; "GRANDMALL"].

Definition UTILITY_BRANDS : list str := lits
  ["MERALCO"; "PLDT"; "GLOBE"; "SMART"; "CONVERGE"; "MAYNILAD";
   "MANILA WATER"; "SKY"; "DITO"].

Definition TRANSPORT_BRANDS : list str := lits
  ["PETRON"; "SHELL"; "CALTEX"; "SEAOIL"; "EASYTRIP"; "AUTOSWEEP"; "GRAB";
   "ANGKAS"; "NLEX"; "SLEX"].

Definition HEALTH_BRANDS : list str := lits
  ["MERCURY DRUG"; "WATSONS"; "SOUTHSTAR"; "GENERIKA"; "ROSE PHARMACY";
   "THE GENERICS PHARMACY"].

(** [ALIAS_MAP], in insertion order. *)
Definition ALIAS_MAP : list (str * str) :=
  map (fun p => (lit (fst p), lit (snd p)))
    [("GOLDEN ARCHES", "MCDONALD'S");
     ("GOLDEN ARCHES FOOD CORPORATION", "MCDONALD'S");
     ("GIANT ARCHES", "MCDONALD'S");
     ("GIANT ARCHES FOOD CORPORATION", "MCDONALD'S");
     ("WWW.UNIQLO.COM", "UNIQLO");
     ("UNIQLO.COM", "UNIQLO");
     ("BDA ENTERPRISES", "7-ELEVEN")].

Definition UTILITY_KW : list str := lits
  ["kwh"; "kilowatt"; "meter"; "account no"; "service period"; "due date";
   "statement"; "internet"; "fiber"; "dsl"; "postpaid"; "prepaid load";
   "load"; "data pack"; "billing"].

Definition TRANSPORT_KW : list str := lits
  ["diesel"; "unleaded"; "gasoline"; "pump"; "liter"; "litre"; "toll";
   "rfid"; "easytrip"; "autosweep"; "plate"; "odometer"; "grab"; "angkas"].

Definition FOOD_KW : list str := lits
  ["meal"; "combo"; "burger"; "fries"; "chicken"; "rice"; "drink";
   "beverage"; "snack"; "dine"; "take out"].

Definition HEALTH_KW : list str := lits
  ["pharmacy"; "rx"; "tablet"; "capsule"; "mg"; "ml"; "clinic"; "dental";
   "optical"; "laboratory"; "prescription"].

Definition GROCERY_KW : list str := lits
  ["grocery"; "supermarket"; "hypermarket"; "market"; "minimart";
   "convenience"].

Definition ALL_SETS : list (str * list str * list str) :=
  [ (lit "Utilities", UTILITY_BRANDS, UTILITY_KW);
    (lit "Transportation", TRANSPORT_BRANDS, TRANSPORT_KW);
    (lit "Health & Wellness", HEALTH_BRANDS, HEALTH_KW);
    (lit "Groceries", GROCERY_BRANDS, GROCERY_KW);
    (lit "Food", FOOD_BRANDS, FOOD_KW) ].

Definition SPACES : regex := Plus Space.

(** [BREAK_PAT], compiled with [re.IGNORECASE]. *)
Definition BREAK_PAT : regex :=
  Seqs [Wb;
        Alts [LitI "branch"; LitI "tin"; LitI "vat"; LitI "address";
              Seq (LitI "add") (Opt (Lit ".")); LitI "tel"; LitI "contact";
              LitI "phone"; Seq (LitI "no") (Opt (Lit ".")); LitI "receipt";
              LitI "invoice"; LitI "official"; LitI "cashier";
              LitI "terminal"; Seq (LitI "store no") (Opt (Lit "."))];
        Wb].

(** The legal suffixes removed by [normalize_store_name]. *)
Definition LEGAL_SUFFIX : regex :=
  Seqs [Wb;
        Alts [Seq (Lit "CORP") (Opt (Lit "ORATION"));
              Seq (Lit "INC") (Opt (Lit "."));
              Seq (Lit "CO") (Opt (Lit "."));
              Lit "COMPANY";
              Seq (Lit "LTD") (Opt (Lit "."));
              Lit "CORPORATION"];
        Wb].

(** [\b7\s*ELEVEN\b]. *)
Definition SEVEN_ELEVEN : regex :=
  Seqs [Wb; Lit "7"; Star Space; Lit "ELEVEN"; Wb].

(* ================================================================== *)
(** * ph_rules.py: sanitising and normalising a store name *)
(* ================================================================== *)

Definition _sanitize_ocr (s : str) : str :=
  match s with
  | [] => s
  | _ =>
      let u := upper s in
      let u := replace "¢" "7" u in
      let u := replace "€" "C" u in
      let u := replace "|" "I"
                 (replace "~" "-"
                    (replace "_" "-"
                       (replace "–" "-" (replace "—" "-" u)))) in
      let u := replace "0/" "Q" u in
      let u := replace "ELEVENN" "ELEVEN"
                 (replace "ELEWEN" "ELEVEN"
                    (replace "ELEWEOD" "ELEVEN"
                       (replace "ELEWEM" "ELEVEN" u))) in
      let u := sub SEVEN_ELEVEN "7-ELEVEN" u in
      strip (sub SPACES " " u)
  end.

Definition _CHAR_REPLACEMENTS : list (str * str) :=
  map (fun p => (lit (fst p), lit (snd p)))
    [("0", "O"); ("1", "I"); ("2", "Z"); ("3", "B"); ("4", "A"); ("5", "S");
     ("6", "G"); ("7", "T"); ("8", "B"); ("9", "G"); ("@", "A"); ("$", "S");
     ("€", "E"); ("£", "L"); ("¢", "C")].

Definition _apply_char_map (u : str) : str :=
  let u := replace "2I" "PI" u in
  let u := replace "2L" "PL" u in
  fold_left (fun u wr => replace (fst wr) (snd wr) u) _CHAR_REPLACEMENTS u.

Definition _normalize_for_match (s : str) : str :=
  let s := _sanitize_ocr s in
  let s := _apply_char_map s in
  let s := sub (Chr (fun c => negb (is_upper c || is_digit c))) "" s in
  sub (Seq Bos (Plus (Chr (fun c => negb (is_upper c))))) "" s.

(** [s.split("\n", 1)[0]]. *)
Fixpoint first_line (s : str) : str :=
  match s with
  | [] => []
  | c :: t => if (code c =? 10)%nat then [] else c :: first_line t
  end.

Definition normalize_store_name (store : option str) : option str :=
  match store with
  | None | Some [] => None
  | Some store =>
      let s := _sanitize_ocr store in
      let s := if existsb (fun c => (code c =? 10)%nat) s
               then first_line s else s in
      let s :=
        match search Eps BREAK_PAT s with
        | Some m => firstn (match_start m) s
        | None => s
        end in
      let s := sub LEGAL_SUFFIX "" s in
      Some (strip (sub (AtLeast Space 2) " " s))
  end.

(* ================================================================== *)
(** * ph_rules.py: snapping to a canonical brand *)
(* ================================================================== *)

Definition Qmaxb (a b : Q) : Q := if Qltb a b then b else a.

Section BrandMatcher.

(** [Levenshtein.distance]. *)
Variable distance : str -> str -> nat.

(** [difflib.SequenceMatcher(None, a, b).ratio()]. *)
Variable ratio : str -> str -> Q.

(** The order in which Python goes through a set of strings, given by its
    elements. *)
Variable iter : list str -> list str.

Definition _sequence_ratio (a b : str) : Q :=
  match a, b with
  | [], _ | _, [] => 0
  | _, _ => ratio a b
  end.

(** The windows of [_partial_ratio]: [b[i : i + span]] from [i] on, [n] of
    them, with the early exit. *)
Fixpoint partial_go (a : str) (span : nat) (n : nat) (b : str) (best : Q)
  : Q :=
  match n with
  | 0%nat => best
  | S n' =>
      let best := Qmaxb best (ratio a (firstn span b)) in
      if Qle_bool (995 # 1000) best then best
      else partial_go a span n' (tl b) best
  end.

Definition _partial_ratio (a b : str) : Q :=
  match a, b with
  | [], _ | _, [] => 0
  | _, _ =>
      let '(a, b) :=
        if (List.length b <? List.length a)%nat then (b, a) else (a, b) in
      let span := List.length a in
      partial_go a span (List.length b - span + 1) b 0
  end.

Definition _similarity_score (norm candidate : str) : Q :=
  let norm_clean := _normalize_for_match norm in
  let cand_clean := _normalize_for_match candidate in
  match norm_clean, cand_clean with
  | [], _ | _, [] => 0
  | _, _ =>
      let lev_d := distance norm_clean cand_clean in
      let denom :=
        Nat.max (List.length norm_clean) (List.length cand_clean) in
      let lev_score := 1 - Qnat lev_d / Qnat denom in
      let seq_score := _sequence_ratio norm_clean cand_clean in
      let partial := _partial_ratio norm_clean cand_clean in
      let prefix_bonus :=
        if startswith norm_clean cand_clean ||
           startswith cand_clean norm_clean
        then 5 # 100 else 0 in
      let base := Qmaxb (Qmaxb lev_score seq_score) partial in
      Qmin 1 (base + prefix_bonus)
  end.

Definition _all_brands_cached : list str :=
  flat_map (fun cbk : str * list str * list str => iter (snd (fst cbk)))
    ALL_SETS.

Definition _best_match (norm : str) (candidates : list str)
  : option str * Q :=
  match norm with
  | [] => (None, 0)
  | _ =>
      fold_left
        (fun (acc : option str * Q) c =>
           let score := _similarity_score norm c in
           if Qltb (snd acc) score then (Some c, score) else acc)
        candidates (None, 0)
  end.

Definition in_set (x : str) (set : list str) : bool :=
  existsb (str_eqb x) set.

(** The category of the first entry of [ALL_SETS] holding a brand. *)
Definition category_of (brand : str) : option str :=
  first_some
    (fun cbk : str * list str * list str =>
       if in_set brand (snd (fst cbk)) then Some (fst (fst cbk)) else None)
    ALL_SETS.

Definition brand_result := (option str * option str * option Q)%type.

Definition alias_pass (norm : str) : option brand_result :=
  first_some
    (fun ac : str * str =>
       if contains (fst ac) (upper norm) then
         match category_of (snd ac) with
         | Some cat => Some (Some (snd ac), Some cat, Some 1)
         | None => None
         end
       else None)
    ALIAS_MAP.

Definition contains_pass (norm : str) : option brand_result :=
  first_some
    (fun cbk : str * list str * list str =>
       first_some
         (fun b =>
            if contains b norm || contains norm b
            then Some (Some b, Some (fst (fst cbk)), Some 1)
            else None)
         (iter (snd (fst cbk))))
    ALL_SETS.

Definition fuzzy_pass (norm : str) : brand_result :=
  let '(best, score) := _best_match norm _all_brands_cached in
  let min_required := 84 # 100 in
  let accepted :=
    match best with
    | Some b =>
        if Qle_bool min_required score && is_truthy best then
          match category_of b with
          | Some cat => Some (Some b, Some cat, Some score)
          | None => None
          end
        else None
    | None => None
    end in
  match accepted with
  | Some r => r
  | None => (None, None, if is_truthy best then Some score else None)
  end.

Definition correct_store_name (store : option str) : brand_result :=
  match store with
  | None | Some [] => (None, None, None)
  | Some _ =>
      match normalize_store_name store with
      | None | Some [] => (None, None, None)
      | Some norm =>
          match alias_pass norm with
          | Some r => r
          | None =>
              match contains_pass norm with
              | Some r => r
              | None => fuzzy_pass norm
              end
          end
      end
  end.

(** [_keyword_match] and [rule_category]; the reason is kept as the pair of
    the brand and its score, or as the keyword mark. *)
Definition _keyword_match (text_low : str) : option str :=
  if any_in UTILITY_KW text_low then Some (lit "Utilities")
  else if any_in TRANSPORT_KW text_low then Some (lit "Transportation")
  else if any_in HEALTH_KW text_low then Some (lit "Health & Wellness")
  else if any_in GROCERY_KW text_low then Some (lit "Groceries")
  else if any_in FOOD_KW text_low then Some (lit "Food")
  else None.

End BrandMatcher.

(* ================================================================== *)
(** * The library functions of the brand matcher, to run it *)
(* ================================================================== *)

(** The edit distance with unit costs, row by row. *)
Fixpoint lev_row (c : ascii) (b : str) (prev : list nat) (left : nat)
  : list nat :=
  match b, prev with
  | y :: b', diag :: ((up :: _) as prev') =>
      let v :=
        Nat.min (Nat.min (S up) (S left))
          (diag + if Ascii.eqb c y then 0 else 1) in
      v :: lev_row c b' prev' v
  | _, _ => []
  end.

Fixpoint lev_rows (a b : str) (prev : list nat) : list nat :=
  match a with
  | [] => prev
  | c :: a' =>
      let first := S (hd 0%nat prev) in
      lev_rows a' b (first :: lev_row c b prev first)
  end.

Definition levenshtein (a b : str) : nat :=
  last (lev_rows a b (seq 0 (S (List.length b)))) 0%nat.

Fixpoint common_prefix (a b : str) : nat :=
  match a, b with
  | x :: a', y :: b' => if Ascii.eqb x y then S (common_prefix a' b') else 0
  | _, _ => 0
  end.

(** The longest block two strings share, the leftmost in the first string
    and then in the second, as [find_longest_match] returns it when no
    character is junk. *)
Fixpoint longest_at (a b : str) (i j : nat) (best : nat * nat * nat)
  : nat * nat * nat :=
  match b with
  | [] => best
  | _ :: b' =>
      let k := common_prefix a b in
      longest_at a b' i (S j)
        (if (snd best <? k)%nat then (i, j, k) else best)
  end.

Fixpoint longest_match (a b : str) (i : nat) (best : nat * nat * nat)
  : nat * nat * nat :=
  match a with
  | [] => best
  | _ :: a' => longest_match a' b (S i) (longest_at a b i 0 best)
  end.

(** The number of characters in the matching blocks. *)
Fixpoint matching_size (fuel : nat) (a b : str) : nat :=
  match fuel with
  | 0%nat => 0
  | S fuel' =>
      let '(i, j, k) := longest_match a b 0 (0, 0, 0)%nat in
      match k with
      | 0%nat => 0
      | _ =>
          (k + matching_size fuel' (firstn i a) (firstn j b)
             + matching_size fuel' (skipn (i + k) a) (skipn (j + k) b))%nat
      end
  end.

(** [SequenceMatcher(None, a, b).ratio()] for a [b] of fewer than 200
    characters. *)
Definition difflib_ratio (a b : str) : Q :=
  let total := (List.length a + List.length b)%nat in
  match total with
  | 0%nat => 1
  | _ => 2 * Qnat (matching_size (S (List.length a)) a b) / Qnat total
  end.

(** Going through a set in the order in which its elements are written. *)
Definition written_order (l : list str) : list str := l.

(* ================================================================== *)
(** * api.py: reconciling the sources *)
(* ================================================================== *)

(** What [resolve_fields] reads of the payloads of OCR.space and of Google
    Vision, and the candidate handed over for PaddleOCR-VL (a non-empty
    dictionary; [pc_confidence] is [None] when the key is missing). *)
Record OcrSpace : Type := mkOcrSpace {
  os_ok : bool;
  os_text : str
}.

Record Vision : Type := mkVision {
  v_ok : bool;
  v_text : str;
  v_confidence : option pyfloat
}.

Record PaddleCandidate : Type := mkPaddleCandidate {
  pc_store : option str;
  pc_total : option Q;
  pc_date : option str;
  pc_confidence : option pyfloat
}.

Record Candidate : Type := mkCandidate {
  c_source : str;
  c_store : option str;
  c_total : option Q;
  c_date : option str;
  c_confidence : pyfloat;
  c_priority : Q
}.

Definition resolved := (option str * option Q * option str * str)%type.

Definition or_else (A : Type) (a b : option A) : option A :=
  match a with
  | Some _ => a
  | None => b
  end.

Definition option_str_eqb (a b : option str) : bool :=
  match a, b with
  | Some x, Some y => str_eqb x y
  | None, None => true
  | _, _ => false
  end.

Definition close_amt (a b : option Q) : bool :=
  match a, b with
  | Some x, Some y => Qle_bool (Qabs (x - y)) (1 # 100)
  | _, _ => false
  end.

Definition eq_store (a b : option str) : bool :=
  match a, b with
  | Some x, Some y =>
      is_truthy a && is_truthy b &&
      str_eqb (upper (strip x)) (upper (strip y))
  | _, _ => false
  end.

(** [x or 0.0] on a float. *)
Definition or_zero (x : pyfloat) : pyfloat :=
  match x with
  | Fin q => if Qeq_bool q 0 then Fin 0 else x
  | NaN => NaN
  end.

Definition score (cand : Candidate) : pyfloat :=
  let s := 0 in
  let s := if is_truthy (c_store cand) then s + 2 else s in
  let s := match c_total cand with Some _ => s + (35 # 10) | None => s end in
  let s := if is_truthy (c_date cand) then s + (12 # 10) else s in
  match or_zero (c_confidence cand) with
  | NaN => NaN
  | Fin conf =>
      let s := s + Qmin conf 100 / 40 in
      let s := s + Qmax 0 (3 - c_priority cand) in
      let s := if str_eqb (c_source cand) "ocr_space"
               then s + (25 # 100) else s in
      let s := if str_eqb (c_source cand) "paddle_vl"
               then s + (5 # 10) else s in
      Fin s
  end.

(** The candidate another one is compared with when looking for a
    consensus. *)
Definition agrees (best cand : Candidate) : bool :=
  let same_store := eq_store (c_store cand) (c_store best) in
  let same_total := close_amt (c_total cand) (c_total best) in
  let same_date :=
    option_str_eqb (c_date cand) (c_date best) &&
    match c_date best with Some _ => true | None => false end in
  same_store && same_total && same_date.

(** One round of the back-fill loop. *)
Definition backfill (acc : option str * option Q * option str)
  (cand : Candidate) : option str * option Q * option str :=
  let '(store, total, date_iso) := acc in
  let store :=
    match store with
    | None => if is_truthy (c_store cand) then c_store cand else None
    | Some _ => store
    end in
  let total :=
    match total with
    | None => c_total cand
    | Some _ => total
    end in
  let date_iso :=
    match date_iso with
    | None => if is_truthy (c_date cand) then c_date cand else None
    | Some _ => date_iso
    end in
  (store, total, date_iso).

(** [max(candidates, key=score)], with the place of the chosen candidate in
    the list: [cand is best] compares the objects, not their fields. *)
Definition select_best (candidates : list Candidate)
  : option (nat * Candidate) :=
  max_by pyfloat_gtb
    (fun ic : nat * Candidate => score (snd ic)) (enumerate candidates).

(** [resolve_fields] from the point where the candidates are built. *)
Definition reconcile (candidates : list Candidate) : resolved :=
  match select_best candidates with
  | None => (None, None, None, lit "unknown")
  | Some (ibest, best) =>
      let consensus :=
        existsb
          (fun ic : nat * Candidate =>
             negb (fst ic =? ibest)%nat && agrees best (snd ic))
          (enumerate candidates) in
      let source_tag :=
        if consensus then lit "consensus" else c_source best in
      let sorted_candidates := sorted_by Qle_bool c_priority candidates in
      let '(store, total, date_iso) :=
        fold_left backfill sorted_candidates
          (c_store best, c_total best, c_date best) in
      (store, total, date_iso, source_tag)
  end.

Section Resolve.

Variable _try_parse_date : str -> option str.

Definition tesseract_candidate (tess_rec : OcrRecord)
  (tess_conf : option pyfloat) : Candidate :=
  let tess_text := rec_text tess_rec in
  let '(t_store, t_total, t_date) :=
    parse_fields_from_ocr _try_parse_date tess_rec in
  let '(fb_store, fb_total, fb_date) :=
    parse_fields _try_parse_date tess_text in
  let t_store := if is_truthy t_store then t_store else fb_store in
  let t_total := or_else t_total fb_total in
  let t_date := if is_truthy t_date then t_date else fb_date in
  mkCandidate "tesseract" t_store t_total t_date
    (match tess_conf with Some c => or_zero c | None => Fin 0 end) 0.

Definition ocr_space_candidate (ocrs : OcrSpace) : list Candidate :=
  match os_ok ocrs, os_text ocrs with
  | true, _ :: _ =>
      let '(s_store, s_total, s_date) :=
        parse_fields _try_parse_date (os_text ocrs) in
      [mkCandidate "ocr_space" s_store s_total s_date (Fin 70) (5 # 10)]
  | _, _ => []
  end.

Definition vision_candidate (vision : Vision) : list Candidate :=
  match v_ok vision, v_text vision with
  | true, _ :: _ =>
      let '(v_store, v_total, v_date) :=
        parse_fields _try_parse_date (v_text vision) in
      let conf :=
        match v_confidence vision with
        | Some c =>
            match or_zero c with Fin q => Fin (q * 100) | NaN => NaN end
        | None => Fin 50
        end in
      [mkCandidate "vision" v_store v_total v_date conf 2]
  | _, _ => []
  end.

Definition paddle_candidate (paddle : option PaddleCandidate)
  : list Candidate :=
  match paddle with
  | Some p =>
      [mkCandidate "paddle_vl" (pc_store p) (pc_total p) (pc_date p)
         (match pc_confidence p with Some c => c | None => Fin 85 end)
         (- (2 # 10))]
  | None => []
  end.

Definition candidates_of (tess_rec : OcrRecord) (tess_conf : option pyfloat)
  (ocrs : OcrSpace) (vision : Vision) (paddle : option PaddleCandidate)
  : list Candidate :=
  [tesseract_candidate tess_rec tess_conf]
    ++ ocr_space_candidate ocrs
    ++ vision_candidate vision
    ++ paddle_candidate paddle.

Definition resolve_fields (tess_rec : OcrRecord) (tess_conf : option pyfloat)
  (ocrs : OcrSpace) (vision : Vision) (paddle : option PaddleCandidate)
  : resolved :=
  reconcile (candidates_of tess_rec tess_conf ocrs vision paddle).

End Resolve.

(** The source names [resolve_fields] gives its candidates. *)
Definition known_sources : list str :=
  lits ["tesseract"; "ocr_space"; "vision"; "paddle_vl"].


(** The first value that is not null among optional values, and the first
    string Python holds for true (neither null nor empty). *)
Fixpoint first_non_null (A : Type) (l : list (option A)) : option A :=
  match l with
  | [] => None
  | Some x :: _ => Some x
  | None :: t => first_non_null t
  end.

Fixpoint first_truthy (l : list (option str)) : option str :=
  match l with
  | [] => None
  | o :: t => if is_truthy o then o else first_truthy t
  end.

(** A field of the best candidate, completed from a fallback when null. *)
Definition filled (A : Type) (field fallback : option A) : option A :=
  match field with
  | Some _ => field
  | None => fallback
  end.

(** A stand-in for the date parser on texts whose dates are already in ISO
    form with a day above 12, which [dateutil] returns as they are. *)
Definition iso_verbatim (s : str) : option str := Some s.

(** The two candidates of the specification's back-fill example, for any
    source names and confidences. *)
Definition example_A (source : str) (confidence : Q) : Candidate :=
  mkCandidate source None (Some (10000 # 100)) (Some (lit "2024-01-01"))
    (Fin confidence) 0.

Definition example_B (source : str) (confidence : Q) : Candidate :=
  mkCandidate source (Some (lit "ACME")) None None (Fin confidence) 2.

(** Inputs on which the back-fill meets an empty store: Tesseract reads a
    total and a date but no store, OCR.space reads a store, and the
    PaddleOCR-VL candidate carries the empty string as its store. *)
Definition empty_store_rec : OcrRecord :=
  mkOcrRecord "VAT 100.00
2024-05-20" [] "".

Definition empty_store_ocrs : OcrSpace := mkOcrSpace true "ACME STORE".

Definition no_vision : Vision := mkVision false "" None.

Definition empty_store_paddle : PaddleCandidate :=
  mkPaddleCandidate (Some (lit "")) None None None.



(** A store with a letter in it, or no store. *)
Definition lettered (o : option str) : Prop :=
  match o with
  | Some x => exists c, In c x /\ is_alpha c = true
  | None => True
  end.





(** The monetary matches on the lines that are not low-priority, each with
    its value and its score, in the order of the scan. *)
Definition line_matches (lines : list str) (il : nat * str)
  : list (Q * Q) :=
  let '(idx, line) := il in
  if _is_low_priority_line line then []
  else
    flat_map
      (fun g =>
         match amount_value g with
         | Some val => [(val, _score_amount_candidate idx line val lines)]
         | None => []
         end)
      (finditer AMT_pre AMT_grp line).

Definition amount_matches (lines : list str) : list (Q * Q) :=
  flat_map (line_matches lines) (enumerate lines).




(** A total line with two amounts. *)
Definition two_amounts_text : str := "TOTAL 5.00 10.00".

(** Blanks squeezed: every run of white space becomes one blank. *)
Fixpoint squeeze_go (in_run : bool) (s : str) : str :=
  match s with
  | [] => []
  | c :: t =>
      if is_space c
      then if in_run then squeeze_go true t else " "%char :: squeeze_go true t
      else c :: squeeze_go false t
  end.

(** No white space but single blanks. *)
Fixpoint spaced (after_space : bool) (s : str) : bool :=
  match s with
  | [] => true
  | c :: t =>
      if is_space c
      then negb after_space && Ascii.eqb c " "%char && spaced true t
      else spaced false t
  end.

Definition single_spaced (s : str) : Prop := spaced false s = true.

Fixpoint drop_spaces (s : str) : str :=
  match s with
  | c :: t => if is_space c then drop_spaces t else s
  | [] => []
  end.

(** The number of white-space characters a string begins with. *)
Fixpoint lead (s : str) : nat :=
  match s with
  | c :: t => if is_space c then S (lead t) else 0%nat
  | [] => 0%nat
  end.


(** [moved P a b]: position [b] is position [a] moved forward over
    characters that all satisfy [P]. *)
Definition moved (P : ascii -> bool) (a b : pos) : Prop :=
  exists w, fst b = rev w ++ fst a /\ snd a = w ++ snd b /\
            Forall (fun c => P c = true) w.

(** A total that is null or not negative. *)
Definition nonneg_opt (o : option Q) : Prop :=
  match o with
  | Some v => 0 <= v
  | None => True
  end.


(* ================================================================== *)
(** * Further notions used by the properties of the code *)
(* ================================================================== *)

(** A result of [correct_store_name]: no brand, no category and at most a
    score in (0, 1]; or a brand of the dictionary, the category of a set
    that holds it, and a score of at least 0.84 and at most 1. *)
Definition sound_correction (r : brand_result) : Prop :=
  match r with
  | (None, None, None) => True
  | (None, None, Some q) => 0 < q /\ q <= 1
  | (Some b, Some cat, Some q) =>
      (exists brands kws, In (cat, brands, kws) ALL_SETS /\ In b brands) /\
      84 # 100 <= q /\ q <= 1
  | _ => False
  end.


(** The name before its last two steps in [normalize_store_name]: what is
    left of the sanitized name after the cuts. *)
Definition cut_name (x : str) : str :=
  let s := _sanitize_ocr x in
  let s := if existsb (fun c => (code c =? 10)%nat) s
           then first_line s else s in
  let s :=
    match search Eps BREAK_PAT s with
    | Some m => firstn (match_start m) s
    | None => s
    end in
  sub LEGAL_SUFFIX "" s.



(** The parts of a result of [resolve_fields]. *)
Definition r_store (r : resolved) : option str := fst (fst (fst r)).
Definition r_total (r : resolved) : option Q := snd (fst (fst r)).
Definition r_date (r : resolved) : option str := snd (fst r).
Definition r_tag (r : resolved) : str := snd r.


(* ================================================================== *)
(** * ph_rules.py: the category by rule *)
(* ================================================================== *)

(** The reason [rule_category] gives: the text "brand:<canon>|score:<score>"
    kept as the two values it is formatted from ([None] for a value that is
    null, on which the format [.3f] raises), or the text "keywords". *)
Inductive reason : Type :=
| brand_reason (canon : option str) (score : option Q)
| keywords_reason.

Section RuleCategory.

Variable distance : str -> str -> nat.
Variable ratio : str -> str -> Q.
Variable iter : list str -> list str.

Definition rule_category (ocr_text : str) (store : option str)
  : option str * option reason :=
  let text_low := lower ocr_text in
  let '(canon, cat_from_brand, score) :=
    correct_store_name distance ratio iter store in
  if is_truthy cat_from_brand
  then (cat_from_brand, Some (brand_reason canon score))
  else
    let cat := _keyword_match text_low in
    if is_truthy cat then (cat, Some keywords_reason)
    else (None, None).

End RuleCategory.

(** The names of the categories. *)
Definition category_names : list str :=
  map (fun cbk : str * list str * list str => fst (fst cbk)) ALL_SETS.

(** [TOTAL_KEYS] without its last entry, "Total". *)
Definition lowercase_total_keys : list str := removelast TOTAL_KEYS.

(* ================================================================== *)
(** * What a pattern asks of a match *)
(* ================================================================== *)

Definition all_ascii : list ascii := map ascii_of_nat (seq 0 256).

(** [needs p r]: every match of [r] holds a character of the class [p]
    (a sufficient test, read off the pattern). *)
Fixpoint needs (p : ascii -> bool) (r : regex) : bool :=
  match r with
  | Chr q => forallb (fun c => implb (q c) (p c)) all_ascii
  | Seq r1 r2 => needs p r1 || needs p r2
  | Alt r1 r2 => needs p r1 && needs p r2
  | Eps | Star _ | Wb | Bos => false
  end.

(** [g] is a piece of [s]. *)
Definition inside (g s : str) : Prop := exists l r, s = l ++ g ++ r.

(** The strings a pattern matches, read off the pattern; the anchors match
    the empty string. *)
Fixpoint lang (r : regex) : str -> Prop :=
  match r with
  | Eps | Wb | Bos => fun w => w = []
  | Chr p => fun w => exists c, w = [c] /\ p c = true
  | Seq r1 r2 => fun w => exists u v, w = u ++ v /\ lang r1 u /\ lang r2 v
  | Alt r1 r2 => fun w => lang r1 w \/ lang r2 w
  | Star r' => fun w => exists ws, w = List.concat ws /\ Forall (lang r') ws
  end.
(* ================================================================== *)
(** * Properties of the generic list functions *)
(* ================================================================== *)

Lemma max_from_in (A K : Type) (gtb : K -> K -> bool) (key : A -> K)
  (l : list A) (best : A) :
  In (max_from gtb key best l) (best :: l).
Proof.
  revert best; induction l as [|x t IH]; intros best; simpl.
  - now left.
  - destruct (gtb (key x) (key best)).
    + destruct (IH x) as [E|H]; [right; left; exact E | right; right; exact H].
    + destruct (IH best) as [E|H]; [left; exact E | right; right; exact H].
Qed.

Lemma max_by_in (A K : Type) (gtb : K -> K -> bool) (key : A -> K)
  (l : list A) (x : A) :
  max_by gtb key l = Some x -> In x l.
Proof.
  destruct l as [|y t]; simpl; [discriminate|].
  intros E; injection E as <-. apply max_from_in.
Qed.

Lemma max_by_nonempty (A K : Type) (gtb : K -> K -> bool) (key : A -> K)
  (l : list A) :
  l <> [] -> exists x, max_by gtb key l = Some x.
Proof.
  destruct l as [|y t]; [congruence|]. intros _. simpl. eauto.
Qed.

Lemma enumerate_from_nth (A : Type) (l : list A) (k i : nat) (x : A) :
  In (i, x) (enumerate_from k l) -> (k <= i)%nat /\ nth_error l (i - k) = Some x.
Proof.
  revert k; induction l as [|y t IH]; intros k; simpl; [tauto|].
  intros [E|H].
  - injection E as <- <-. rewrite Nat.sub_diag. split; [lia | reflexivity].
  - apply IH in H as [Hle Hn]. split; [lia|].
    replace (i - k)%nat with (S (i - S k)) by lia. exact Hn.
Qed.

Lemma enumerate_nth (A : Type) (l : list A) (i : nat) (x : A) :
  In (i, x) (enumerate l) -> nth_error l i = Some x.
Proof.
  intros H. apply enumerate_from_nth in H as [_ H].
  now rewrite Nat.sub_0_r in H.
Qed.

Lemma enumerate_from_nil (A : Type) (l : list A) (k : nat) :
  enumerate_from k l = [] -> l = [].
Proof. destruct l; simpl; [reflexivity | discriminate]. Qed.

(** The stable sort returns a permutation of its argument, in ascending
    order of the keys. *)
Lemma insert_by_perm (A K : Type) (leb : K -> K -> bool) (key : A -> K)
  (x : A) (l : list A) :
  Permutation (x :: l) (insert_by leb key x l).
Proof.
  induction l as [|y t IH]; simpl; [reflexivity|].
  destruct (leb (key x) (key y)); [reflexivity|].
  rewrite perm_swap. now apply perm_skip.
Qed.

Lemma sorted_by_perm (A K : Type) (leb : K -> K -> bool) (key : A -> K)
  (l : list A) :
  Permutation l (sorted_by leb key l).
Proof.
  induction l as [|x t IH]; simpl; [reflexivity|].
  rewrite <- insert_by_perm. now apply perm_skip.
Qed.

Inductive ascending (A : Type) (le : A -> A -> Prop) : list A -> Prop :=
| asc_nil : ascending le []
| asc_one : forall x, ascending le [x]
| asc_cons : forall x y l,
    le x y -> ascending le (y :: l) -> ascending le (x :: y :: l).

Lemma insert_by_ascending (A : Type) (key : A -> Q) (x : A) (l : list A) :
  ascending (fun a b => key a <= key b) l ->
  ascending (fun a b => key a <= key b) (insert_by Qle_bool key x l).
Proof.
  induction 1 as [|y|y z l Hyz Hl IH]; simpl.
  - constructor.
  - destruct (Qle_bool (key x) (key y)) eqn:E.
    + constructor; [now apply Qle_bool_iff | constructor].
    + constructor; [|constructor].
      apply Qlt_le_weak, Qnot_le_lt. intros C.
      apply Qle_bool_iff in C. congruence.
  - simpl in IH. destruct (Qle_bool (key x) (key y)) eqn:E.
    + constructor; [now apply Qle_bool_iff | now constructor].
    + destruct (Qle_bool (key x) (key z)) eqn:E'.
      * constructor; [|assumption].
        apply Qlt_le_weak, Qnot_le_lt. intros C.
        apply Qle_bool_iff in C. congruence.
      * now constructor.
Qed.

Lemma sorted_by_ascending (A : Type) (key : A -> Q) (l : list A) :
  ascending (fun a b => key a <= key b) (sorted_by Qle_bool key l).
Proof.
  induction l as [|x t IH]; simpl; [constructor|].
  now apply insert_by_ascending.
Qed.

(* ================================================================== *)
(** * Properties of the matcher *)
(* ================================================================== *)

Lemma moved_refl (P : ascii -> bool) (a : pos) : moved P a a.
Proof. exists []. repeat split. constructor. Qed.

Lemma moved_trans (P : ascii -> bool) (a b c : pos) :
  moved P a b -> moved P b c -> moved P a c.
Proof.
  intros (w1 & F1 & E1 & H1) (w2 & F2 & E2 & H2).
  exists (w1 ++ w2). repeat split.
  - rewrite F2, F1, rev_app_distr, app_assoc. reflexivity.
  - rewrite E1, E2, app_assoc. reflexivity.
  - apply Forall_app. split; assumption.
Qed.

Lemma moved_weaken (P P' : ascii -> bool) (a b : pos) :
  (forall c, P c = true -> P' c = true) -> moved P a b -> moved P' a b.
Proof.
  intros HPQ (w & F & E & H). exists w. repeat split; try assumption.
  eapply Forall_impl; [|exact H]. exact HPQ.
Qed.

Lemma moved_span (P : ascii -> bool) (a b : pos) :
  moved P a b -> Forall (fun c => P c = true) (span a b) /\
                 snd a = span a b ++ snd b.
Proof.
  intros (w & _ & E & H).
  assert (Ew : span a b = w).
  { unfold span. rewrite E, length_app, Nat.add_sub.
    rewrite firstn_app, Nat.sub_diag, firstn_all. simpl.
    apply app_nil_r. }
  rewrite Ew. split; [exact H | exact E].
Qed.

Lemma star_iter_moved (P : ascii -> bool) (step : pos -> list pos) :
  (forall a b, In b (step a) -> moved P a b) ->
  forall n a b, In b (star_iter step n a) -> moved P a b.
Proof.
  intros Hstep. induction n as [|n IH]; intros a b; simpl.
  - intros [<-|[]]. apply moved_refl.
  - rewrite in_app_iff, in_flat_map. intros [(m & Hm & Hb)|[<-|[]]].
    + destruct (List.length (snd m) <? List.length (snd a)); [|contradiction].
      eapply moved_trans; [apply Hstep; exact Hm | apply IH; exact Hb].
    + apply moved_refl.
Qed.

Lemma run_moved (r : regex) :
  forall a b, In b (run r a) -> moved (cls r) a b.
Proof.
  induction r as [|p|r1 IH1 r2 IH2|r1 IH1 r2 IH2|r IH| |]; intros a b; simpl.
  - intros [<-|[]]. apply moved_refl.
  - destruct a as [bf [|c t]]; simpl; [contradiction|].
    destruct (p c) eqn:E; [|contradiction].
    intros [<-|[]]. exists [c]. repeat split. constructor; [exact E|constructor].
  - rewrite in_flat_map. intros (m & Hm & Hb).
    eapply moved_trans.
    + eapply moved_weaken; [|apply IH1; exact Hm].
      intros c ->. reflexivity.
    + eapply moved_weaken; [|apply IH2; exact Hb].
      intros c ->. apply orb_true_r.
  - rewrite in_app_iff. intros [H|H].
    + eapply moved_weaken; [|apply IH1; exact H]. intros c ->. reflexivity.
    + eapply moved_weaken; [|apply IH2; exact H].
      intros c ->. apply orb_true_r.
  - apply star_iter_moved. exact IH.
  - destruct (xorb _ _); [|contradiction]. intros [<-|[]]. apply moved_refl.
  - destruct (fst a); [|contradiction]. intros [<-|[]]. apply moved_refl.
Qed.

Lemma hd_error_in (A : Type) (l : list A) (x : A) :
  hd_error l = Some x -> In x l.
Proof. destruct l; simpl; [discriminate|]. intros E; injection E as <-. now left. Qed.

Lemma match_at_moved (pre grp : regex) (st a b : pos) :
  match_at pre grp st = Some (a, b) ->
  moved (cls pre) st a /\ moved (cls grp) a b.
Proof.
  unfold match_at. intros H. apply hd_error_in in H.
  apply in_flat_map in H as (m & Hm & Hb).
  apply in_map_iff in Hb as (b' & E & Hb). injection E as -> ->.
  split; now apply run_moved.
Qed.

#[local] Arguments match_at : simpl never.

Lemma search_go_group (pre grp : regex) (after before : str)
  (m : pos * pos * pos) :
  search_go pre grp before after = Some m ->
  Forall (fun c => cls grp c = true) (group1 m).
Proof.
  revert before; induction after as [|c t IH]; intros before; simpl.
  - destruct (match_at _ _ _) as [[a b]|] eqn:E; [|discriminate].
    intros H; injection H as <-. simpl.
    apply match_at_moved in E as [_ E]. now apply moved_span in E.
  - destruct (match_at _ _ _) as [[a b]|] eqn:E.
    + intros H; injection H as <-. simpl.
      apply match_at_moved in E as [_ E]. now apply moved_span in E.
    + apply IH.
Qed.

Lemma search_group_chars (pre grp : regex) (s g : str) :
  search_group pre grp s = Some g ->
  Forall (fun c => cls grp c = true) g.
Proof.
  unfold search_group, search.
  destruct (search_go pre grp [] s) eqn:E; simpl; [|discriminate].
  intros H; injection H as <-. eapply search_go_group; exact E.
Qed.

Lemma finditer_go_chars (pre grp : regex) (after : str) :
  forall skip before g,
    In g (finditer_go pre grp skip before after) ->
    Forall (fun c => cls grp c = true) g.
Proof.
  induction after as [|c t IH]; intros skip before g; simpl; [contradiction|].
  destruct skip as [|k]; [|apply IH].
  destruct (match_at _ _ _) as [[a b]|] eqn:E; [|apply IH].
  intros [<-|H]; [|eapply IH; exact H].
  apply match_at_moved in E as [_ E]. now apply moved_span in E.
Qed.

Lemma finditer_chars (pre grp : regex) (s g : str) :
  In g (finditer pre grp s) -> Forall (fun c => cls grp c = true) g.
Proof. apply finditer_go_chars. Qed.

Lemma sub_go_zero (r : regex) (repl before t : str) (x : ascii) :
  sub_go r repl 0 before (x :: t) =
  match hd_error (run r (before, x :: t)) with
  | Some b =>
      match (List.length (x :: t) - List.length (snd b))%nat with
      | 0%nat => repl ++ x :: sub_go r repl 0 (x :: before) t
      | S k => repl ++ sub_go r repl k (x :: before) t
      end
  | None => x :: sub_go r repl 0 (x :: before) t
  end.
Proof. reflexivity. Qed.

(** A replacement leaves every character a match cannot hold where it is in
    the subject. *)
Lemma sub_go_keeps (r : regex) (repl : str) (c : ascii) :
  cls r c = false ->
  forall after skip before,
    Forall (fun x => cls r x = true) (firstn skip after) ->
    In c after -> In c (sub_go r repl skip before after).
Proof.
  intros Hc. induction after as [|x t IH]; intros skip before Hskip Hin;
    [contradiction|].
  destruct skip as [|k].
  - rewrite sub_go_zero.
    destruct (hd_error (run r _)) as [b|] eqn:E.
    + apply hd_error_in, run_moved in E. destruct E as (w & _ & Ew & Hw).
      cbn [snd] in Ew.
      replace (List.length (x :: t) - List.length (snd b))%nat
        with (List.length w)
        by (rewrite Ew, length_app; lia).
      destruct w as [|y w]; cbn [List.length].
      * apply in_or_app. right. destruct Hin as [<-|Hin]; [now left|].
        right. apply IH; [constructor | exact Hin].
      * injection Ew as <- Ew. inversion Hw as [|? ? Hy Hw']; subst.
        apply in_or_app. right. apply IH.
        -- rewrite firstn_app, Nat.sub_diag, firstn_all. simpl.
           now rewrite app_nil_r.
        -- destruct Hin as [<-|Hin]; [congruence | exact Hin].
    + destruct Hin as [<-|Hin]; [now left|].
      right. apply IH; [constructor | exact Hin].
  - simpl in Hskip. inversion Hskip as [|? ? Hx Hk]; subst.
    simpl. apply IH; [exact Hk|].
    destruct Hin as [<-|Hin]; [congruence | exact Hin].
Qed.

Lemma sub_keeps (r : regex) (repl s : str) (c : ascii) :
  cls r c = false -> In c s -> In c (sub r repl s).
Proof.
  intros Hc Hin. apply sub_go_keeps; [exact Hc | constructor | exact Hin].
Qed.

(** A successful search for a pattern that begins with a character class
    finds a character of that class. *)
Lemma search_go_first (p : ascii -> bool) (r : regex) (after before : str) :
  search_go Eps (Seq (Chr p) r) before after <> None ->
  exists c, In c after /\ p c = true.
Proof.
  revert before; induction after as [|c t IH]; intros before; simpl.
  - unfold match_at; simpl. congruence.
  - destruct (match_at _ _ _) eqn:E.
    + intros _. unfold match_at in E. simpl in E.
      destruct (p c) eqn:Ep; [|discriminate]. exists c. split; [now left|exact Ep].
    + intros H. apply IH in H as (x & Hx & Hp). exists x. split; [now right|exact Hp].
Qed.

Lemma matches_first (p : ascii -> bool) (r : regex) (s : str) :
  matches (Seq (Chr p) r) s = true -> exists c, In c s /\ p c = true.
Proof.
  unfold matches, search. intros H. apply search_go_first with (r := r) (before := []).
  destruct (search_go Eps (Seq (Chr p) r) [] s); [discriminate|discriminate].
Qed.

(* ================================================================== *)
(** * The reconciler *)
(* ================================================================== *)

Lemma candidates_of_sources p rec conf ocrs vision paddle c :
  In c (candidates_of p rec conf ocrs vision paddle) ->
  In (c_source c) known_sources.
Proof.
  unfold candidates_of, ocr_space_candidate, vision_candidate,
    paddle_candidate, tesseract_candidate.
  destruct (parse_fields_from_ocr p rec) as [[? ?] ?].
  destruct (parse_fields p (rec_text rec)) as [[? ?] ?].
  destruct (parse_fields p (os_text ocrs)) as [[? ?] ?].
  destruct (parse_fields p (v_text vision)) as [[? ?] ?].
  destruct (os_ok ocrs), (os_text ocrs), (v_ok vision), (v_text vision),
    paddle; simpl;
    intros H; repeat (destruct H as [<-|H]; [simpl; tauto|]);
    try contradiction.
Qed.

Lemma select_best_in (cs : list Candidate) (i : nat) (best : Candidate) :
  select_best cs = Some (i, best) -> nth_error cs i = Some best.
Proof.
  intros H. apply max_by_in in H. now apply enumerate_nth.
Qed.

Lemma select_best_some (cs : list Candidate) :
  cs <> [] -> exists i best, select_best cs = Some (i, best).
Proof.
  intros H. unfold select_best.
  destruct (@max_by_nonempty _ _ pyfloat_gtb
              (fun ic : nat * Candidate => score (snd ic)) (enumerate cs))
    as [[i b] E].
  - intros C. apply enumerate_from_nil in C. contradiction.
  - eauto.
Qed.

Lemma reconcile_tag (cs : list Candidate) (i : nat) (best : Candidate) :
  select_best cs = Some (i, best) ->
  snd (reconcile cs) =
    if existsb (fun ic : nat * Candidate =>
                  negb (fst ic =? i)%nat && agrees best (snd ic))
         (enumerate cs)
    then lit "consensus" else c_source best.
Proof.
  intros H. unfold reconcile. rewrite H.
  destruct (fold_left backfill _ _) as [[? ?] ?]. reflexivity.
Qed.


(** C10. Whatever its arguments, [resolve_fields] starts its list of
    candidates with the one of Tesseract, so the list is not empty, the tag
    it returns is "consensus" or the source of one of the candidates it
    built (one of the four source names), and it is never "unknown". *)
Theorem resolve_fields_tag_known p rec conf ocrs vision paddle :
  let cs := candidates_of p rec conf ocrs vision paddle in
  let tag := snd (resolve_fields p rec conf ocrs vision paddle) in
  hd_error cs = Some (tesseract_candidate p rec conf) /\
  cs <> [] /\
  (tag = lit "consensus" \/
   exists c, In c cs /\ tag = c_source c /\ In tag known_sources) /\
  tag <> lit "unknown".
Proof.
  intros cs tag.
  assert (Hne : cs <> []) by (unfold cs, candidates_of; simpl; discriminate).
  split; [reflexivity|]. split; [exact Hne|].
  destruct (select_best_some Hne) as (i & best & Hb).
  assert (Hin : In best cs)
    by (apply select_best_in in Hb; eapply nth_error_In; eauto).
  assert (Hsrc : In (c_source best) known_sources)
    by (eapply candidates_of_sources; exact Hin).
  unfold tag, resolve_fields. fold cs. rewrite (reconcile_tag _ Hb).
  destruct (existsb _ _).
  - split; [now left | discriminate].
  - split.
    + right. exists best. auto.
    + intros C. rewrite C in Hsrc. simpl in Hsrc.
      repeat (destruct Hsrc as [Hsrc|Hsrc]; [discriminate|]).
      contradiction.
Qed.


Lemma fold_backfill (l : list Candidate) (s : option str) (t : option Q)
  (d : option str) :
  fold_left backfill l (s, t, d) =
  (filled s (first_truthy (map c_store l)),
   filled t (first_non_null (map c_total l)),
   filled d (first_truthy (map c_date l))).
Proof.
  revert s t d; induction l as [|c l IH]; intros s t d; simpl.
  - now destruct s, t, d.
  - rewrite IH.
    destruct s, t, d; simpl;
      destruct (c_store c) as [[|? ?]|], (c_total c),
        (c_date c) as [[|? ?]|]; reflexivity.
Qed.

Lemma reconcile_fields (cs : list Candidate) (i : nat) (best : Candidate) :
  select_best cs = Some (i, best) ->
  let sorted := sorted_by Qle_bool c_priority cs in
  fst (reconcile cs) =
  (filled (c_store best) (first_truthy (map c_store sorted)),
   filled (c_total best) (first_non_null (map c_total sorted)),
   filled (c_date best) (first_truthy (map c_date sorted))).
Proof.
  intros H sorted. unfold reconcile. rewrite H.
  fold sorted. rewrite fold_backfill. reflexivity.
Qed.

Lemma Qltb_false_le (a b : Q) : a <= b -> Qltb b a = false.
Proof.
  intros H. unfold Qltb. apply negb_false_iff. now apply Qle_bool_iff.
Qed.

Lemma bonus_bounds (src : str) (s : Q) :
  let s1 := if str_eqb src "ocr_space" then s + (25 # 100) else s in
  let s2 := if str_eqb src "paddle_vl" then s1 + (5 # 10) else s1 in
  s <= s2 /\ s2 <= s + (75 # 100).
Proof.
  cbv zeta. destruct (str_eqb src "ocr_space"), (str_eqb src "paddle_vl");
    split; lra.
Qed.

Lemma example_A_wins (srcA srcB : str) (confA confB : Q) :
  0 <= confA ->
  pyfloat_gtb (score (example_B srcB confB)) (score (example_A srcA confA))
  = false.
Proof.
  intros HA. unfold score, example_A, example_B; simpl.
  assert (H3 : Qmax 0 (3 - 0) == 3) by reflexivity.
  assert (H1 : Qmax 0 (3 - 2) == 1) by reflexivity.
  assert (EA : forall q, 0 <= q -> 0 <= Qmin q 100)
    by (intros q Hq; apply Q.min_glb; [exact Hq | lra]).
  assert (EB : forall q, Qmin q 100 <= 100) by (intros q; apply Q.le_min_r).
  assert (HA' : exists a, 0 <= a /\
            (if Qeq_bool confA 0 then Fin 0 else Fin confA) = Fin a).
  { destruct (Qeq_bool confA 0); [exists 0 | exists confA];
      (split; [lra | reflexivity]). }
  destruct HA' as (a & Ha & ->).
  assert (HB' : exists b,
            (if Qeq_bool confB 0 then Fin 0 else Fin confB) = Fin b)
    by (destruct (Qeq_bool confB 0); eauto).
  destruct HB' as (b & ->).
  simpl. apply Qltb_false_le.
  pose proof (bonus_bounds srcA
                (0 + (35 # 10) + (12 # 10) + Qmin a 100 / 40
                 + Qmax 0 (3 - 0))) as [LA _].
  pose proof (bonus_bounds srcB
                (0 + 2 + Qmin b 100 / 40 + Qmax 0 (3 - 2))) as [_ UB].
  simpl in LA, UB.
  eapply Qle_trans; [exact UB|]. eapply Qle_trans; [|exact LA].
  specialize (EA a Ha). specialize (EB b).
  rewrite H3, H1.
  set (x := Qmin a 100) in *. set (y := Qmin b 100) in *.
  unfold Qdiv. setoid_replace (/ 40) with (1 # 40) by reflexivity.
  lra.
Qed.

(** The back-fill example: candidate A (no store, total 100.00, date
    2024-01-01, priority 0) and candidate B (store ACME, no total, no date,
    priority 2) resolve to ACME, 100.00 and 2024-01-01. *)
Lemma backfill_example (srcA srcB : str) (confA confB : Q) :
  0 <= confA ->
  reconcile [example_A srcA confA; example_B srcB confB] =
  (Some (lit "ACME"), Some (10000 # 100), Some (lit "2024-01-01"), srcA).
Proof.
  intros HA. unfold reconcile, select_best, max_by; simpl.
  rewrite (example_A_wins srcA srcB confB HA). reflexivity.
Qed.

(** C2 (as stated, refuted). Tesseract reads no store, the PaddleOCR-VL
    candidate, first in ascending priority, carries the empty string as its
    store: the first store that is not null in that order is the empty
    string, yet the store returned is the one of OCR.space. *)
Lemma backfill_passes_over_empty_store :
  let cs := candidates_of iso_verbatim empty_store_rec None empty_store_ocrs
              no_vision (Some empty_store_paddle) in
  exists i best,
    select_best cs = Some (i, best) /\
    c_store best = None /\
    first_non_null (map c_store (sorted_by Qle_bool c_priority cs))
      = Some (lit "") /\
    fst (fst (fst (resolve_fields iso_verbatim empty_store_rec None
                     empty_store_ocrs no_vision (Some empty_store_paddle))))
      = Some (lit "ACME STORE").
Proof.
  eexists _, _. split; [vm_compute; reflexivity|].
  repeat split; vm_compute; reflexivity.
Qed.

(** C2 (amended). The candidates are gone through in ascending order of
    priority; a field the best candidate has (not null) is returned as it
    is; a null total is replaced by the first total that is not null, a
    null store or date by the first store or date that is neither null nor
    the empty string.  In particular candidate A (no store, 100.00,
    2024-01-01, priority 0) with candidate B (ACME, nothing else,
    priority 2) resolves to ACME, 100.00, 2024-01-01. *)
Theorem backfill_fills_only_null_fields :
  (forall p rec conf ocrs vision paddle,
      let cs := candidates_of p rec conf ocrs vision paddle in
      let sorted := sorted_by Qle_bool c_priority cs in
      Permutation cs sorted /\
      ascending (fun a b => c_priority a <= c_priority b) sorted /\
      exists i best,
        select_best cs = Some (i, best) /\
        fst (resolve_fields p rec conf ocrs vision paddle) =
        (filled (c_store best) (first_truthy (map c_store sorted)),
         filled (c_total best) (first_non_null (map c_total sorted)),
         filled (c_date best) (first_truthy (map c_date sorted)))) /\
  (forall srcA srcB confA confB,
      0 <= confA ->
      fst (reconcile [example_A srcA confA; example_B srcB confB]) =
      (Some (lit "ACME"), Some (10000 # 100), Some (lit "2024-01-01"))).
Proof.
  split.
  - intros p rec conf ocrs vision paddle cs sorted.
    split; [apply sorted_by_perm|]. split; [apply sorted_by_ascending|].
    assert (Hne : cs <> [])
      by (unfold cs, candidates_of; simpl; discriminate).
    destruct (select_best_some Hne) as (i & best & Hb).
    exists i, best. split; [exact Hb|].
    unfold resolve_fields. fold cs. eapply reconcile_fields; exact Hb.
  - intros srcA srcB confA confB HA.
    now rewrite (backfill_example srcA srcB confB HA).
Qed.

Lemma backfill_fills_only_null_fields_witness :
  0 <= 90 /\
  fst (reconcile [example_A "tesseract" 90; example_B "vision" 50]) =
  (Some (lit "ACME"), Some (10000 # 100), Some (lit "2024-01-01")).
Proof.
  split; [lra|].
  apply (proj2 backfill_fills_only_null_fields); lra.
Defined.

(* ================================================================== *)
(** * The total is never negative *)
(* ================================================================== *)

Lemma replace_go_chars (old new : str) (c : ascii) (s : str) :
  forall skip, In c (replace_go old new skip s) -> In c s \/ In c new.
Proof.
  induction s as [|x t IH]; intros skip; simpl; [tauto|].
  destruct skip as [|k].
  - destruct (startswith old (x :: t)).
    + rewrite in_app_iff. intros [H|H]; [now right|].
      apply IH in H. tauto.
    + intros [<-|H]; [now left; left|]. apply IH in H. tauto.
  - intros H. apply IH in H. tauto.
Qed.

Lemma replace_chars (old new s : str) (c : ascii) :
  In c (replace old new s) -> In c s \/ In c new.
Proof.
  unfold replace. destruct old; [tauto|]. apply replace_go_chars.
Qed.

Lemma digits_value_nonneg (s : str) :
  forall acc n, (0 <= acc)%Z -> digits_value acc s = Some n -> (0 <= n)%Z.
Proof.
  induction s as [|c t IH]; intros acc n Hacc; cbn [digits_value].
  - intros E; injection E as <-. exact Hacc.
  - destruct (is_digit c); [|discriminate]. apply IH. lia.
Qed.

Lemma unsigned_float_nonneg (s : str) (v : Q) :
  unsigned_float s = Some v -> 0 <= v.
Proof.
  unfold unsigned_float. destruct (split_at_dot s) as [ip fp].
  destruct (ip ++ _) as [|c ds]; [discriminate|].
  destruct (digits_value 0 (c :: ds)) as [n|] eqn:E; [|discriminate].
  intros H; injection H as <-.
  apply digits_value_nonneg in E; [|lia].
  unfold Qle; simpl. lia.
Qed.

(** The characters of an amount as [AMT] captures it: digits, commas and
    full stops, hence no sign. *)
Lemma amt_chars (c : ascii) :
  cls AMT_grp c = true ->
  is_digit c = true \/ c = ","%char \/ c = "."%char.
Proof.
  destruct c as [[] [] [] [] [] [] [] []]; vm_compute; intros H;
    first [ discriminate H
          | left; reflexivity
          | right; left; reflexivity
          | right; right; reflexivity ].
Qed.

Lemma amount_value_nonneg (g : str) (v : Q) :
  Forall (fun c => cls AMT_grp c = true) g ->
  amount_value g = Some v -> 0 <= v.
Proof.
  intros Hg. unfold amount_value, to_float.
  destruct (replace "," "" g) as [|c t] eqn:E; [discriminate|].
  assert (Hc : In c g).
  { assert (H : In c (replace "," "" g)) by (rewrite E; now left).
    apply replace_chars in H as [H|[]]. exact H. }
  rewrite Forall_forall in Hg. apply Hg, amt_chars in Hc.
  assert (Em : Ascii.eqb c "-"%char = false /\ Ascii.eqb c "+"%char = false).
  { destruct Hc as [Hc|[->| ->]]; [|split; reflexivity..].
    split; apply Ascii.eqb_neq; intros ->; discriminate. }
  destruct Em as [-> ->]. apply unsigned_float_nonneg.
Qed.

Lemma first_some_some (A B : Type) (f : A -> option B) (l : list A) (y : B) :
  first_some f l = Some y -> exists x, In x l /\ f x = Some y.
Proof.
  induction l as [|x t IH]; simpl; [discriminate|].
  destruct (f x) as [z|] eqn:E.
  - intros H; injection H as <-. exists x. split; [now left|exact E].
  - intros H. apply IH in H as (x' & Hin & Hx). exists x'. split; [now right|exact Hx].
Qed.

Lemma best_step_nonneg (lines : list str) (idx : nat) (line : str)
  (st : best_state) (g : str) :
  Forall (fun c => cls AMT_grp c = true) g ->
  nonneg_opt (fst st) -> nonneg_opt (fst (best_step lines idx line st g)).
Proof.
  intros Hg Hst. unfold best_step.
  destruct (amount_value g) as [val|] eqn:E; [|exact Hst].
  destruct st as [bv bs]. unfold best_update.
  match goal with |- context [if ?b then _ else _] => destruct b end;
    [|exact Hst].
  cbn [fst nonneg_opt]. eapply amount_value_nonneg; eauto.
Qed.

Lemma fold_best_step_nonneg (lines : list str) (idx : nat) (line : str)
  (gs : list str) :
  Forall (fun g => Forall (fun c => cls AMT_grp c = true) g) gs ->
  forall st, nonneg_opt (fst st) ->
             nonneg_opt (fst (fold_left (best_step lines idx line) gs st)).
Proof.
  induction 1 as [|g gs Hg Hgs IH]; intros st Hst; simpl; [exact Hst|].
  apply IH. now apply best_step_nonneg.
Qed.

Lemma best_line_nonneg (lines : list str) (st : best_state)
  (il : nat * str) :
  nonneg_opt (fst st) -> nonneg_opt (fst (best_line lines st il)).
Proof.
  intros Hst. unfold best_line. destruct il as [idx line].
  destruct (_is_low_priority_line line); [exact Hst|].
  apply fold_best_step_nonneg; [|exact Hst].
  apply Forall_forall. intros g Hg. eapply finditer_chars; exact Hg.
Qed.

Lemma _best_amount_nonneg (lines : list str) :
  nonneg_opt (_best_amount lines).
Proof.
  unfold _best_amount.
  assert (H : forall ils st, nonneg_opt (fst st) ->
                nonneg_opt (fst (fold_left (best_line lines) ils st))).
  { induction ils as [|il ils IH]; intros st Hst; simpl; [exact Hst|].
    apply IH. now apply best_line_nonneg. }
  apply H. exact I.
Qed.

Lemma keyword_line_amount_nonneg (lines : list str) (il : nat * str) (v : Q) :
  keyword_line_amount lines il = Some v -> 0 <= v.
Proof.
  unfold keyword_line_amount. destruct il as [i line].
  destruct (_is_low_priority_line line); [discriminate|].
  destruct (any_in TOTAL_KEYS (lower line)); [|discriminate].
  destruct (search_group AMT_pre AMT_grp line) as [g|] eqn:E.
  - apply amount_value_nonneg. eapply search_group_chars; exact E.
  - destruct (_ && _); [|discriminate].
    destruct (search_group AMT_pre AMT_grp (nth (i + 1) lines []))
      as [g|] eqn:E'; [|discriminate].
    apply amount_value_nonneg. eapply search_group_chars; exact E'.
Qed.

Lemma extract_total_textonly_nonneg (text : str) (v : Q) :
  extract_total_textonly text = Some v -> 0 <= v.
Proof.
  unfold extract_total_textonly.
  destruct (first_some _ _) as [w|] eqn:E.
  - intros H; injection H as <-.
    apply first_some_some in E as (il & _ & E).
    eapply keyword_line_amount_nonneg; exact E.
  - intros H. pose proof (_best_amount_nonneg (nonblank_lines text)) as P.
    rewrite H in P. exact P.
Qed.

Lemma amount_candidate_value (info : LineInfo) (g : str)
  (c : AmountCandidate) :
  amount_candidate info g = Some c -> amount_value g = Some (ac_value c).
Proof.
  unfold amount_candidate. destruct (amount_value g) as [v|]; [|discriminate].
  destruct (_tokens_for_amount (li_tokens info) g); [discriminate|].
  intros H; injection H as <-. reflexivity.
Qed.

Lemma line_candidates_nonneg (info : LineInfo) (c : AmountCandidate) :
  In c (line_candidates info) -> 0 <= ac_value c.
Proof.
  unfold line_candidates. destruct (li_text info) as [|x t]; [contradiction|].
  rewrite in_flat_map. intros (g & Hg & Hc).
  destruct (amount_candidate info g) as [c'|] eqn:E; [|contradiction].
  destruct Hc as [<-|[]].
  apply amount_candidate_value in E.
  eapply amount_value_nonneg; [|exact E].
  eapply finditer_chars; exact Hg.
Qed.

Lemma extract_total_layout_nonneg (words : list Word) (text : str) (v : Q) :
  extract_total_layout words text = Some v -> 0 <= v.
Proof.
  unfold extract_total_layout.
  destruct words as [|w ws]; [apply extract_total_textonly_nonneg|].
  destruct (flat_map _ (w :: ws)) as [|tok toks];
    [apply extract_total_textonly_nonneg|].
  set (line_infos := map line_info _).
  destruct line_infos as [|li lis] eqn:El;
    [apply extract_total_textonly_nonneg|].
  destruct (max_by _ _ _) as [best|] eqn:E;
    [|apply extract_total_textonly_nonneg].
  intros H; injection H as <-.
  apply max_by_in in E. apply in_flat_map in E as (info & _ & Hc).
  eapply line_candidates_nonneg; exact Hc.
Qed.

(** C8. Neither [extract_total_textonly] nor [extract_total_layout] returns
    a negative number: every total they return is at least 0.  (The model
    of [float] does read a leading minus sign; the amounts it is given
    never have one.) *)
Theorem extract_total_never_negative :
  (forall text v, extract_total_textonly text = Some v -> 0 <= v) /\
  (forall words full_text v,
      extract_total_layout words full_text = Some v -> 0 <= v).
Proof.
  split.
  - apply extract_total_textonly_nonneg.
  - apply extract_total_layout_nonneg.
Qed.

(* ================================================================== *)
(** * The brand matcher *)
(* ================================================================== *)

Lemma first_some_none (A B : Type) (f : A -> option B) (l : list A) :
  (forall x, In x l -> f x = None) -> first_some f l = None.
Proof.
  induction l as [|x t IH]; intros H; simpl; [reflexivity|].
  rewrite (H x) by now left. apply IH. intros y Hy. apply H. now right.
Qed.

Lemma first_some_only (A B : Type) (f : A -> option B) (l : list A) (y : B) :
  (exists x, In x l /\ f x = Some y) ->
  (forall x, In x l -> f x = None \/ f x = Some y) ->
  first_some f l = Some y.
Proof.
  induction l as [|x t IH]; intros (x0 & Hin & Hx0) H; [contradiction|].
  simpl. destruct (H x (or_introl eq_refl)) as [E|E]; rewrite E; [|reflexivity].
  apply IH.
  - destruct Hin as [->|Hin]; [congruence|]. eauto.
  - intros z Hz. apply H. now right.
Qed.

Lemma normalize_cent_elewem :
  normalize_store_name (Some (lit "¢-ELEWEM BRANCH 123"))
  = Some (lit "7-ELEVEN").
Proof. vm_compute. reflexivity. Qed.

Ltac each_brand H :=
  vm_compute in H;
  repeat (destruct H as [<-|H]; [vm_compute; try reflexivity; auto|]);
  try contradiction.

(** The loop of [_best_match] for any similarity [sim]. *)
Lemma best_fold (sim : str -> Q) (cands : list str) :
  forall (seen : list str) (acc : option str * Q),
    (forall c, In c seen -> sim c <= snd acc) ->
    (fst acc = None -> snd acc = 0) ->
    (forall b, fst acc = Some b ->
               In b (seen ++ cands) /\ snd acc = sim b /\ 0 < snd acc) ->
    let r :=
      fold_left
        (fun (acc : option str * Q) c =>
           let score := sim c in
           if Qltb (snd acc) score then (Some c, score) else acc)
        cands acc in
    (forall c, In c (seen ++ cands) -> sim c <= snd r) /\
    (fst r = None -> snd r = 0) /\
    (forall b, fst r = Some b ->
               In b (seen ++ cands) /\ snd r = sim b /\ 0 < snd r).
Proof.
  induction cands as [|c cands IH]; intros seen acc Hle Hnone Hsome;
    cbn [fold_left].
  - rewrite app_nil_r in *. auto.
  - replace (seen ++ c :: cands) with ((seen ++ [c]) ++ cands) in *
      by (rewrite <- app_assoc; reflexivity).
    cbv zeta. apply IH.
    + intros x Hx. apply in_app_iff in Hx as [Hx|[<-|[]]].
      * destruct (Qltb (snd acc) (sim c)) eqn:E; cbn [snd];
          [|now apply Hle].
        apply negb_true_iff in E.
        eapply Qle_trans; [apply Hle; exact Hx|].
        apply Qlt_le_weak, Qnot_le_lt. intros C.
        apply Qle_bool_iff in C. congruence.
      * destruct (Qltb (snd acc) (sim c)) eqn:E; cbn [snd];
          [apply Qle_refl|].
        apply negb_false_iff, Qle_bool_iff in E. exact E.
    + destruct (Qltb (snd acc) (sim c)) eqn:E; cbn [fst snd];
        [discriminate | exact Hnone].
    + intros b. destruct (Qltb (snd acc) (sim c)) eqn:E; cbn [fst snd].
      * intros Eb; injection Eb as <-. split; [|split; [reflexivity|]].
        -- apply in_app_iff. left. apply in_app_iff. right. now left.
        -- apply negb_true_iff in E.
           assert (L : snd acc < sim c).
           { apply Qnot_le_lt. intros C. apply Qle_bool_iff in C.
             congruence. }
           destruct (fst acc) as [b0|] eqn:Ea.
           ++ destruct (Hsome b0 eq_refl) as (_ & _ & P).
              eapply Qlt_trans; eauto.
           ++ rewrite Hnone in L by reflexivity. exact L.
      * intros Eb. destruct (Hsome b Eb) as (Hin & Hs & Hp).
        split; [exact Hin | split; assumption].
Qed.

Section BrandMatcherFacts.

Variable distance : str -> str -> nat.
Variable ratio : str -> str -> Q.
Variable iter : list str -> list str.

(** Python goes through every element of a set once, in some order. *)
Hypothesis iter_perm : forall l, Permutation l (iter l).

Lemma iter_in (l : list str) (x : str) : In x (iter l) <-> In x l.
Proof.
  split; apply Permutation_in; [symmetry|]; apply iter_perm.
Qed.

Lemma brands_not_empty (b : str) :
  In b (_all_brands_cached iter) -> is_truthy (Some b) = true.
Proof.
  unfold _all_brands_cached, ALL_SETS. simpl.
  rewrite !in_app_iff, !iter_in.
  intros H. repeat (destruct H as [H|H]; [each_brand H|]). contradiction.
Qed.

Lemma contains_pass_seven_eleven :
  contains_pass iter (lit "7-ELEVEN")
  = Some (Some (lit "7-ELEVEN"), Some (lit "Food"), Some 1).
Proof.
  unfold contains_pass, ALL_SETS. cbn [first_some fst snd].
  rewrite (@first_some_none _ _ _ (iter UTILITY_BRANDS))
    by (intros x Hx; apply (proj1 (iter_in _ _)) in Hx; each_brand Hx).
  rewrite (@first_some_none _ _ _ (iter TRANSPORT_BRANDS))
    by (intros x Hx; apply (proj1 (iter_in _ _)) in Hx; each_brand Hx).
  rewrite (@first_some_none _ _ _ (iter HEALTH_BRANDS))
    by (intros x Hx; apply (proj1 (iter_in _ _)) in Hx; each_brand Hx).
  rewrite (@first_some_none _ _ _ (iter GROCERY_BRANDS))
    by (intros x Hx; apply (proj1 (iter_in _ _)) in Hx; each_brand Hx).
  rewrite (@first_some_only _ _ _ (iter FOOD_BRANDS)
             (Some (lit "7-ELEVEN"), Some (lit "Food"), Some 1)).
  - reflexivity.
  - exists (lit "7-ELEVEN"). split; [|vm_compute; reflexivity].
    apply (proj2 (iter_in _ _)). vm_compute. tauto.
  - intros x Hx; apply (proj1 (iter_in _ _)) in Hx; each_brand Hx.
Qed.

(** C5. Whatever the order in which Python goes through the brand sets,
    "¢-ELEWEM BRANCH 123" is normalised to "7-ELEVEN" and corrected to the
    canonical brand "7-ELEVEN" of category "Food". *)
Theorem cent_elewem_is_seven_eleven :
  normalize_store_name (Some (lit "¢-ELEWEM BRANCH 123"))
    = Some (lit "7-ELEVEN") /\
  correct_store_name distance ratio iter (Some (lit "¢-ELEWEM BRANCH 123"))
    = (Some (lit "7-ELEVEN"), Some (lit "Food"), Some 1).
Proof.
  split; [exact normalize_cent_elewem|].
  unfold correct_store_name. rewrite normalize_cent_elewem.
  change (lit "¢-ELEWEM BRANCH 123") with
    (ascii_of_nat 194 :: tl (lit "¢-ELEWEM BRANCH 123")).
  change (lit "7-ELEVEN") with ("7"%char :: tl (lit "7-ELEVEN")).
  cbv iota beta.
  change ("7"%char :: tl (lit "7-ELEVEN")) with (lit "7-ELEVEN").
  replace (alias_pass (lit "7-ELEVEN")) with (@None brand_result)
    by (vm_compute; reflexivity).
  rewrite contains_pass_seven_eleven. reflexivity.
Qed.

(** What [_best_match] returns: the highest similarity when some candidate
    has a positive one, with a candidate that reaches it; no candidate and
    0 otherwise. *)
Lemma best_match_spec (norm : str) (cands : list str) :
  norm <> [] ->
  let r := _best_match distance ratio norm cands in
  (forall c, In c cands ->
             _similarity_score distance ratio norm c <= snd r) /\
  (fst r = None -> snd r = 0) /\
  (forall b, fst r = Some b ->
             In b cands /\
             snd r = _similarity_score distance ratio norm b /\
             0 < snd r).
Proof.
  intros Hn. unfold _best_match. destruct norm as [|x t]; [congruence|].
  apply (@best_fold (_similarity_score distance ratio (x :: t)) cands []
           (None, 0)).
  - intros c [].
  - reflexivity.
  - discriminate.
Qed.

(** C4 (amended). A store string that is normalised to a non-empty name,
    hits no alias and no brand by containment, and whose similarity to
    every brand is below 0.84, gets no correction: the brand and the
    category are null.  The score returned is the highest similarity over
    the brands when some brand has a positive one, and null when none
    has. *)
Theorem below_threshold_no_correction (store norm : str) :
  normalize_store_name (Some store) = Some norm ->
  norm <> [] ->
  alias_pass norm = None ->
  contains_pass iter norm = None ->
  (forall b, In b (_all_brands_cached iter) ->
             _similarity_score distance ratio norm b < 84 # 100) ->
  exists reported,
    correct_store_name distance ratio iter (Some store)
      = (None, None, reported) /\
    ((exists b, In b (_all_brands_cached iter) /\
                0 < _similarity_score distance ratio norm b) ->
     exists s b,
       reported = Some s /\ In b (_all_brands_cached iter) /\
       s = _similarity_score distance ratio norm b /\
       forall c, In c (_all_brands_cached iter) ->
                 _similarity_score distance ratio norm c <= s) /\
    ((forall b, In b (_all_brands_cached iter) ->
                _similarity_score distance ratio norm b <= 0) ->
     reported = None).
Proof.
  intros Hnorm Hne Halias Hcont Hlow.
  destruct (best_match_spec (_all_brands_cached iter) Hne)
    as (Hmax & Hnone & Hsome).
  unfold correct_store_name. rewrite Hnorm.
  destruct store as [|x0 t0]; [discriminate Hnorm|].
  destruct norm as [|x t]; [congruence|].
  rewrite Halias, Hcont. unfold fuzzy_pass.
  destruct (_best_match distance ratio (x :: t) (_all_brands_cached iter))
    as [best score] eqn:Eb. simpl in Hmax, Hnone, Hsome.
  destruct best as [b|].
  - destruct (Hsome b eq_refl) as (Hin & Hs & Hp).
    assert (Hthr : Qle_bool (84 # 100) score = false).
    { apply not_true_is_false. intros C. apply Qle_bool_iff in C.
      specialize (Hlow b Hin). rewrite <- Hs in Hlow.
      apply Qlt_not_le in Hlow. contradiction. }
    rewrite Hthr. cbn [andb]. rewrite (brands_not_empty _ Hin).
    eexists. split; [reflexivity|]. split.
    + intros _. exists score, b. repeat split; assumption.
    + intros Hall. specialize (Hall b Hin). rewrite <- Hs in Hall.
      apply Qlt_not_le in Hp. contradiction.
  - cbn [is_truthy]. eexists. split; [reflexivity|]. split.
    + intros (b & Hin & Hp). specialize (Hmax b Hin).
      rewrite Hnone in Hmax by reflexivity.
      apply Qlt_not_le in Hp. contradiction.
    + reflexivity.
Qed.

End BrandMatcherFacts.

(* ================================================================== *)
(** * The store read from a text has a letter *)
(* ================================================================== *)

Lemma startswith_app (p s : str) :
  startswith p s = true -> s = p ++ skipn (List.length p) s.
Proof.
  revert s; induction p as [|a p IH]; intros s; simpl; [reflexivity|].
  destruct s as [|b s]; [discriminate|].
  intros H. apply andb_true_iff in H as [E H].
  apply Ascii.eqb_eq in E as <-. f_equal. now apply IH.
Qed.

Lemma replace_go_keeps (old new : str) (c : ascii) :
  old <> [] ->
  ~ In c old ->
  forall s skip,
    Forall (fun x => In x old) (firstn skip s) ->
    In c s -> In c (replace_go old new skip s).
Proof.
  intros Hold Hc.
  induction s as [|x t IH]; intros skip Hskip Hin; [contradiction|].
  cbn [replace_go]. destruct skip as [|k].
  - destruct (startswith old (x :: t)) eqn:E.
    + apply startswith_app in E.
      destruct old as [|o old']; [congruence|].
      cbn [List.length app skipn] in E. injection E as <- E.
      apply in_or_app. right.
      replace (List.length (x :: old') - 1)%nat with (List.length old')
        by (cbn [List.length]; lia).
      apply IH.
      * rewrite E, firstn_app, Nat.sub_diag, firstn_all. cbn [firstn].
        rewrite app_nil_r. apply Forall_forall. intros y Hy. now right.
      * destruct Hin as [<-|Hin]; [|exact Hin].
        exfalso. apply Hc. now left.
    + destruct Hin as [<-|Hin]; [now left|]. right.
      apply IH; [constructor | exact Hin].
  - cbn [firstn] in Hskip. inversion Hskip as [|? ? Hx Hk]; subst.
    apply IH; [exact Hk|].
    destruct Hin as [<-|Hin]; [contradiction | exact Hin].
Qed.

Lemma replace_keeps (old new s : str) (c : ascii) :
  ~ In c old -> In c s -> In c (replace old new s).
Proof.
  intros Hc Hin. unfold replace. destruct old as [|o old'] eqn:E; [exact Hin|].
  apply replace_go_keeps; [discriminate | exact Hc | constructor | exact Hin].
Qed.

Lemma lstrip_keeps (s : str) (c : ascii) :
  is_space c = false -> In c s -> In c (lstrip s).
Proof.
  intros Hc. induction s as [|x t IH]; cbn [lstrip]; [tauto|].
  destruct (is_space x) eqn:E; [|intros H; exact H].
  intros [<-|H]; [congruence | now apply IH].
Qed.

Lemma strip_keeps (s : str) (c : ascii) :
  is_space c = false -> In c s -> In c (strip s).
Proof.
  intros Hc Hin. unfold strip, rstrip.
  apply in_rev. rewrite rev_involutive.
  apply lstrip_keeps; [exact Hc|]. apply in_rev. rewrite rev_involutive.
  now apply lstrip_keeps.
Qed.

Lemma alpha_facts (c : ascii) :
  is_alpha c = true ->
  is_space c = false /\ c <> "|"%char /\ c <> "0"%char /\ c <> "/"%char.
Proof.
  destruct c as [[] [] [] [] [] [] [] []]; vm_compute; intros H;
    first [discriminate H | repeat split; discriminate].
Qed.

Lemma _norm_keeps (s : str) (c : ascii) :
  is_space c = false -> In c s -> In c (_norm s).
Proof.
  intros Hc Hin. unfold _norm. apply strip_keeps; [exact Hc|].
  apply sub_keeps; [|exact Hin].
  unfold AtLeast. cbn [cls Exactly Space]. rewrite Hc. reflexivity.
Qed.

Lemma store_of_line_lettered (line : str) :
  lettered (store_of_line line).
Proof.
  unfold store_of_line.
  set (cand := strip_chars _ line).
  destruct (py_len cand <? 3)%nat; [exact I|].
  destruct (any_in SKIP_STORE (lower cand)); [exact I|].
  destruct (matches _word cand) eqn:E; [|exact I].
  apply matches_first in E as (c & Hin & Hc).
  destruct (alpha_facts c Hc) as (Hs & Hp & H0 & Hsl).
  exists c. split; [|exact Hc].
  apply _norm_keeps; [exact Hs|].
  apply replace_keeps.
  - intros [C|[C|[]]]; congruence.
  - apply replace_keeps; [|exact Hin]. intros [C|[]]; congruence.
Qed.

Lemma extract_store_lettered (text : str) : lettered (extract_store text).
Proof.
  unfold extract_store.
  destruct (first_some store_of_line _) as [x|] eqn:E; [|exact I].
  apply first_some_some in E as (line & _ & E).
  pose proof (store_of_line_lettered line) as L. now rewrite E in L.
Qed.


(* ================================================================== *)
(** * Consensus *)
(* ================================================================== *)

Lemma str_eqb_eq (a b : str) : str_eqb a b = true <-> a = b.
Proof.
  unfold str_eqb. destruct (list_eq_dec ascii_dec a b); split; congruence.
Qed.

















(* ================================================================== *)
(** * The date *)
(* ================================================================== *)





(* ================================================================== *)
(** * The text-only total *)
(* ================================================================== *)

Lemma fold_left_flat_map (A B C : Type) (f : A -> C -> A) (g : B -> list C)
  (l : list B) :
  forall a,
    fold_left f (flat_map g l) a
    = fold_left (fun a x => fold_left f (g x) a) l a.
Proof.
  induction l as [|x l IH]; intros a; cbn [flat_map fold_left];
    [reflexivity|].
  rewrite fold_left_app. apply IH.
Qed.

Lemma fold_best_step (lines : list str) (idx : nat) (line : str)
  (gs : list str) :
  forall st,
    fold_left (best_step lines idx line) gs st
    = fold_left best_update
        (flat_map
           (fun g =>
              match amount_value g with
              | Some val =>
                  [(val, _score_amount_candidate idx line val lines)]
              | None => []
              end) gs) st.
Proof.
  induction gs as [|g gs IH]; intros st; cbn [flat_map fold_left];
    [reflexivity|].
  rewrite fold_left_app, IH. f_equal. unfold best_step.
  destruct (amount_value g); reflexivity.
Qed.

Lemma best_amount_fold (lines : list str) :
  _best_amount lines
  = fst (fold_left best_update (amount_matches lines) (None, None)).
Proof.
  unfold _best_amount, amount_matches. rewrite fold_left_flat_map.
  f_equal. generalize (@None Q, @None Q). generalize (enumerate lines).
  induction l as [|[idx line] l IH]; intros st; cbn [fold_left];
    [reflexivity|].
  rewrite IH. f_equal. unfold best_line, line_matches.
  destruct (_is_low_priority_line line); [reflexivity|].
  apply fold_best_step.
Qed.

Lemma Qltb_lt (a b : Q) : Qltb a b = true <-> a < b.
Proof.
  unfold Qltb. rewrite negb_true_iff. split.
  - intros H. apply Qnot_le_lt. intros C. apply Qle_bool_iff in C. congruence.
  - intros H. apply not_true_is_false. intros C. apply Qle_bool_iff in C.
    apply Qlt_not_le in H. contradiction.
Qed.

Lemma Qltb_ge (a b : Q) : Qltb a b = false <-> b <= a.
Proof.
  unfold Qltb. rewrite negb_false_iff. apply Qle_bool_iff.
Qed.

Lemma Qabs_lt_iff (x e : Q) : Qabs x < e <-> - e < x /\ x < e.
Proof.
  split.
  - intros H. revert H. apply Qabs_case; intros; lra.
  - intros [H1 H2]. apply Qabs_case; intros; lra.
Qed.





(* ================================================================== *)
(** * Normalising a store name *)
(* ================================================================== *)

Lemma hd_error_app (A : Type) (l l' : list A) (x : A) :
  hd_error l = Some x -> hd_error (l ++ l') = Some x.
Proof. destruct l; [discriminate | intros H; exact H]. Qed.

Lemma star_space_hd (n : nat) :
  forall b s,
    (List.length s <= n)%nat ->
    exists b',
      hd_error (star_iter (run Space) n (b, s)) = Some (b', drop_spaces s).
Proof.
  induction n as [|n IH]; intros b s Hn.
  - destruct s; [|cbn [List.length] in Hn; lia]. exists b. reflexivity.
  - cbn [star_iter]. destruct s as [|c t].
    + exists b. reflexivity.
    + cbn [run Space snd fst drop_spaces].
      destruct (is_space c) eqn:E.
      * cbn [flat_map snd List.length].
        replace (List.length t <? S (List.length t))%nat with true
          by (symmetry; apply Nat.ltb_lt; lia).
        rewrite app_nil_r.
        destruct (IH (c :: b) t) as (b' & Hb');
          [cbn [List.length] in Hn; lia|].
        exists b'. apply hd_error_app. exact Hb'.
      * exists b. reflexivity.
Qed.

Lemma drop_spaces_length (s : str) :
  (List.length (drop_spaces s) <= List.length s)%nat.
Proof.
  induction s as [|c t IH]; cbn [drop_spaces List.length]; [lia|].
  destruct (is_space c); cbn [List.length]; lia.
Qed.

(** [SPACES] at a position: no match on a character that is not white
    space, and the whole run of white space otherwise. *)
Lemma run_spaces (b : str) (c : ascii) (t : str) :
  if is_space c
  then exists b', hd_error (run SPACES (b, c :: t))
                  = Some (b', drop_spaces t)
  else run SPACES (b, c :: t) = [].
Proof.
  unfold SPACES, Plus. cbn [run Space snd fst].
  destruct (is_space c) eqn:E; [|reflexivity].
  cbn [flat_map snd]. rewrite app_nil_r.
  apply star_space_hd. lia.
Qed.

Lemma lead_drop (s : str) :
  (List.length s - List.length (drop_spaces s))%nat = lead s.
Proof.
  induction s as [|c t IH]; cbn [drop_spaces lead List.length]; [reflexivity|].
  destruct (is_space c).
  - pose proof (drop_spaces_length t). rewrite <- IH. lia.
  - cbn [List.length]. lia.
Qed.

Lemma sub_go_spaces (after : str) :
  forall before,
    sub_go SPACES " " (lead after) before after = squeeze_go true after /\
    sub_go SPACES " " 0 before after = squeeze_go false after.
Proof.
  induction after as [|c t IH]; intros before; [split; reflexivity|].
  assert (B : sub_go SPACES " " 0 before (c :: t)
              = squeeze_go false (c :: t)).
  { rewrite sub_go_zero. cbn [squeeze_go].
    pose proof (run_spaces before c t) as R.
    destruct (is_space c) eqn:E.
    - destruct R as (b' & ->). cbn [snd].
      replace (List.length (c :: t) - List.length (drop_spaces t))%nat
        with (S (lead t)).
      + change (lit " ") with [" "%char]. cbn [app]. f_equal. apply IH.
      + rewrite <- lead_drop. pose proof (drop_spaces_length t).
        cbn [List.length]. lia.
    - rewrite R. cbn [hd_error]. f_equal. apply IH. }
  split; [|exact B].
  cbn [lead]. destruct (is_space c) eqn:E.
  - cbn [sub_go squeeze_go]. rewrite E. apply IH.
  - rewrite B. cbn [squeeze_go]. rewrite E. reflexivity.
Qed.

Lemma sub_spaces (s : str) : sub SPACES " " s = squeeze_go false s.
Proof. apply sub_go_spaces. Qed.

Lemma spaced_squeeze (s : str) :
  spaced true (squeeze_go true s) = true /\
  spaced false (squeeze_go false s) = true.
Proof.
  induction s as [|c t [IH1 IH2]]; cbn [squeeze_go]; [split; reflexivity|].
  destruct (is_space c) eqn:E.
  - split; [exact IH1|]. cbn [spaced]. rewrite IH1. reflexivity.
  - cbn [spaced]. rewrite E. split; exact IH2.
Qed.

Lemma spaced_weaken (s : str) (b : bool) :
  spaced b s = true -> spaced false s = true.
Proof.
  destruct s as [|c t]; [reflexivity|]. cbn [spaced].
  destruct (is_space c); [|tauto].
  destruct b; [discriminate | tauto].
Qed.

Lemma spaced_suffix (l s : str) :
  forall b, spaced b (l ++ s) = true -> spaced false s = true.
Proof.
  induction l as [|c l IH]; intros b; cbn [app].
  - apply spaced_weaken.
  - cbn [spaced]. destruct (is_space c).
    + intros H. apply andb_true_iff in H as [_ H]. now apply IH in H.
    + apply IH.
Qed.

Lemma spaced_prefix (s r : str) :
  forall b, spaced b (s ++ r) = true -> spaced b s = true.
Proof.
  induction s as [|c s IH]; intros b; cbn [app spaced]; [reflexivity|].
  destruct (is_space c).
  - intros H. apply andb_true_iff in H as [H1 H2].
    rewrite H1. now apply IH in H2.
  - apply IH.
Qed.

Lemma lstrip_suffix (s : str) : exists l, s = l ++ lstrip s /\
                                          Forall (fun c => is_space c = true) l.
Proof.
  induction s as [|c t (l & E & F)]; cbn [lstrip].
  - exists []. split; [reflexivity | constructor].
  - destruct (is_space c) eqn:Ec.
    + exists (c :: l). split; [cbn [app]; now f_equal | now constructor].
    + exists []. split; [reflexivity | constructor].
Qed.

Lemma strip_middle (s : str) :
  exists l r, s = l ++ strip s ++ r.
Proof.
  destruct (lstrip_suffix s) as (l & E & _).
  destruct (lstrip_suffix (rev (lstrip s))) as (r & E' & _).
  exists l, (rev r). unfold strip, rstrip.
  rewrite <- rev_app_distr, <- E', rev_involutive. exact E.
Qed.

Lemma lstrip_fixed (s : str) :
  match s with c :: _ => is_space c = false | [] => True end ->
  lstrip s = s.
Proof.
  destruct s as [|c t]; [reflexivity|]. cbn [lstrip]. now intros ->.
Qed.

Lemma lstrip_head (s : str) :
  match lstrip s with c :: _ => is_space c = false | [] => True end.
Proof.
  induction s as [|c t IH]; cbn [lstrip]; [exact I|].
  destruct (is_space c) eqn:E; [exact IH | exact E].
Qed.

Lemma strip_idempotent (s : str) : strip (strip s) = strip s.
Proof.
  unfold strip, rstrip.
  set (a := lstrip s). set (y := rev (lstrip (rev a))).
  assert (Hy : lstrip y = y).
  { apply lstrip_fixed.
    destruct (lstrip_suffix (rev a)) as (l & E & F).
    assert (Ea : a = y ++ rev l).
    { unfold y. rewrite <- rev_app_distr, <- E. now rewrite rev_involutive. }
    pose proof (lstrip_head s) as Ha. fold a in Ha.
    destruct y as [|c y']; [exact I|]. rewrite Ea in Ha. exact Ha. }
  rewrite Hy. unfold y at 1. rewrite rev_involutive.
  rewrite (lstrip_fixed (lstrip (rev a))); [reflexivity|].
  apply lstrip_head.
Qed.

Lemma spaced_strip (s : str) :
  single_spaced s -> single_spaced (strip s).
Proof.
  unfold single_spaced. intros H.
  destruct (strip_middle s) as (l & r & E). rewrite E in H.
  apply spaced_suffix in H. now apply spaced_prefix in H.
Qed.

Lemma spaced_chars (s : str) :
  forall b c, spaced b s = true -> In c s -> is_space c = true ->
              c = " "%char.
Proof.
  induction s as [|x t IH]; intros b c H Hin Hc; [contradiction|].
  cbn [spaced] in H. destruct Hin as [<-|Hin].
  - rewrite Hc in H. apply andb_true_iff in H as [H _].
    apply andb_true_iff in H as [_ H]. now apply Ascii.eqb_eq in H.
  - destruct (is_space x).
    + apply andb_true_iff in H as [_ H]. eapply IH; eauto.
    + eapply IH; eauto.
Qed.

(** Two white-space characters in a row are needed for [\s{2,}]. *)
Lemma run_two_spaces (b : str) (c : ascii) (t : str) :
  (is_space c = true ->
   match t with d :: _ => is_space d = false | [] => True end) ->
  run (AtLeast Space 2) (b, c :: t) = [].
Proof.
  intros H. unfold AtLeast. cbn [run Exactly Space snd fst].
  destruct (is_space c) eqn:E; [|reflexivity].
  specialize (H eq_refl). cbn [flat_map snd fst].
  destruct t as [|d t]; [reflexivity|]. rewrite H. reflexivity.
Qed.


(** What [_sanitize_ocr] returns has single blanks only and no blank at
    either end. *)
Lemma sanitize_shape (s : str) :
  s <> [] ->
  single_spaced (_sanitize_ocr s) /\
  strip (_sanitize_ocr s) = _sanitize_ocr s.
Proof.
  intros Hs. unfold _sanitize_ocr. destruct s as [|c t]; [congruence|].
  split.
  - apply spaced_strip. rewrite sub_spaces. apply spaced_squeeze.
  - apply strip_idempotent.
Qed.



(* ================================================================== *)
(** * The theorems at concrete inputs *)
(* ================================================================== *)

Lemma extract_total_never_negative_witness :
  extract_total_textonly
    "GRAND TOTAL 1,234.56
CASH TENDERED 2,000.00" = Some (123456 # 100) /\
  0 <= 123456 # 100.
Proof.
  assert (E : extract_total_textonly
                "GRAND TOTAL 1,234.56
CASH TENDERED 2,000.00" = Some (123456 # 100))
    by (vm_compute; reflexivity).
  split; [exact E|].
  exact (proj1 extract_total_never_negative _ _ E).
Defined.

Lemma cent_elewem_is_seven_eleven_witness :
  (forall l, Permutation l (written_order l)) /\
  correct_store_name levenshtein difflib_ratio written_order
    (Some (lit "¢-ELEWEM BRANCH 123"))
  = (Some (lit "7-ELEVEN"), Some (lit "Food"), Some 1).
Proof.
  split; [intros l; apply Permutation_refl|].
  exact (proj2 (@cent_elewem_is_seven_eleven levenshtein difflib_ratio
                  written_order (fun l => Permutation_refl l))).
Defined.

(** C4 (as stated, refuted). "!!!" hits no alias and no brand by
    containment, its similarity to every brand is 0, so that the best score
    [_best_match] reaches is 0, below 0.84; yet the score returned is null,
    not 0. *)
Lemma no_similar_brand_reports_no_score :
  normalize_store_name (Some (lit "!!!")) = Some (lit "!!!") /\
  alias_pass (lit "!!!") = None /\
  contains_pass written_order (lit "!!!") = None /\
  _best_match levenshtein difflib_ratio (lit "!!!")
    (_all_brands_cached written_order) = (None, 0) /\
  correct_store_name levenshtein difflib_ratio written_order
    (Some (lit "!!!")) = (None, None, None).
Proof. repeat split; vm_compute; reflexivity. Qed.

Lemma below_threshold_no_correction_witness :
  normalize_store_name (Some (lit "XYZ HARDWARE"))
    = Some (lit "XYZ HARDWARE") /\
  exists reported,
    correct_store_name levenshtein difflib_ratio written_order
      (Some (lit "XYZ HARDWARE")) = (None, None, reported).
Proof.
  assert (N : normalize_store_name (Some (lit "XYZ HARDWARE"))
              = Some (lit "XYZ HARDWARE")) by (vm_compute; reflexivity).
  split; [exact N|].
  destruct (@below_threshold_no_correction levenshtein difflib_ratio
              written_order (fun l => Permutation_refl l)
              (lit "XYZ HARDWARE") (lit "XYZ HARDWARE") N)
    as (reported & E & _).
  - discriminate.
  - vm_compute; reflexivity.
  - vm_compute; reflexivity.
  - intros b Hb. vm_compute in Hb.
    repeat (destruct Hb as [<-|Hb]; [vm_compute; reflexivity|]).
    contradiction.
  - exists reported. exact E.
Defined.






(* ================================================================== *)
(** * More on the brand matcher *)
(* ================================================================== *)

Lemma Qmaxb_ge_l (a b : Q) : a <= Qmaxb a b.
Proof.
  unfold Qmaxb. destruct (Qltb a b) eqn:E; [|apply Qle_refl].
  apply Qltb_lt in E. now apply Qlt_le_weak.
Qed.

Lemma Qmaxb_ge_r (a b : Q) : b <= Qmaxb a b.
Proof.
  unfold Qmaxb. destruct (Qltb a b) eqn:E; [apply Qle_refl|].
  now apply Qltb_ge in E.
Qed.

Lemma partial_go_nonneg (ratio : str -> str -> Q) (a : str) (span n : nat) :
  forall b best, 0 <= best -> 0 <= partial_go ratio a span n b best.
Proof.
  induction n as [|n IH]; intros b best Hb; cbn [partial_go]; [exact Hb|].
  assert (H : 0 <= Qmaxb best (ratio a (firstn span b)))
    by (eapply Qle_trans; [exact Hb | apply Qmaxb_ge_l]).
  destruct (Qle_bool _ _); [exact H | now apply IH].
Qed.

Lemma _partial_ratio_nonneg (ratio : str -> str -> Q) (a b : str) :
  0 <= _partial_ratio ratio a b.
Proof.
  unfold _partial_ratio. destruct a as [|x a]; [apply Qle_refl|].
  destruct b as [|y b]; [apply Qle_refl|].
  destruct (_ <? _)%nat; apply partial_go_nonneg; apply Qle_refl.
Qed.

Lemma similarity_bounds (distance : str -> str -> nat)
  (ratio : str -> str -> Q) (norm candidate : str) :
  0 <= _similarity_score distance ratio norm candidate /\
  _similarity_score distance ratio norm candidate <= 1.
Proof.
  unfold _similarity_score.
  destruct (_normalize_for_match norm) as [|x n];
    [split; [apply Qle_refl | discriminate]|].
  destruct (_normalize_for_match candidate) as [|y c];
    [split; [apply Qle_refl | discriminate]|].
  cbv zeta. split; [|apply Q.le_min_l].
  apply Q.min_glb; [discriminate|].
  set (p := _partial_ratio ratio (x :: n) (y :: c)).
  set (m := Qmaxb _ p).
  assert (Hp : 0 <= p) by apply _partial_ratio_nonneg.
  assert (Hm : p <= m) by apply Qmaxb_ge_r.
  destruct (_ || _); lra.
Qed.

(** X1. Whatever the edit distance and the sequence ratio are, the
    similarity of two names lies between 0 and 1, as the documentation of
    [_similarity_score] says. *)
Theorem similarity_score_in_unit_interval (distance : str -> str -> nat)
  (ratio : str -> str -> Q) (norm candidate : str) :
  0 <= _similarity_score distance ratio norm candidate /\
  _similarity_score distance ratio norm candidate <= 1.
Proof. apply similarity_bounds. Qed.

Lemma in_set_in (x : str) (set : list str) : in_set x set = true -> In x set.
Proof.
  unfold in_set. intros H. apply existsb_exists in H as (y & Hy & E).
  apply str_eqb_eq in E as ->. exact Hy.
Qed.

Lemma category_of_in (b cat : str) :
  category_of b = Some cat ->
  exists brands kws, In (cat, brands, kws) ALL_SETS /\ In b brands.
Proof.
  unfold category_of. intros H.
  apply first_some_some in H as ([[c brands] kws] & Hin & H).
  cbn [fst snd] in H. destruct (in_set b brands) eqn:E; [|discriminate].
  injection H as <-. exists brands, kws. split; [exact Hin|].
  now apply in_set_in.
Qed.

Section CorrectionFacts.

Variable distance : str -> str -> nat.
Variable ratio : str -> str -> Q.
Variable iter : list str -> list str.
Hypothesis iter_perm : forall l, Permutation l (iter l).

Lemma alias_pass_sound (norm : str) (r : brand_result) :
  alias_pass norm = Some r -> sound_correction r.
Proof.
  unfold alias_pass. intros H.
  apply first_some_some in H as ([alias canonical] & _ & H).
  cbn [fst snd] in H. destruct (contains alias (upper norm)); [|discriminate].
  destruct (category_of canonical) as [cat|] eqn:E; [|discriminate].
  injection H as <-. cbn [sound_correction].
  split; [now apply category_of_in|]. split; [discriminate | apply Qle_refl].
Qed.

Lemma contains_pass_sound (norm : str) (r : brand_result) :
  contains_pass iter norm = Some r -> sound_correction r.
Proof.
  unfold contains_pass. intros H.
  apply first_some_some in H as ([[cat brands] kws] & Hin & H).
  cbn [fst snd] in H.
  apply first_some_some in H as (b & Hb & H).
  destruct (_ || _); [|discriminate]. injection H as <-.
  cbn [sound_correction]. split.
  - exists brands, kws. split; [exact Hin|].
    eapply Permutation_in; [symmetry; apply iter_perm | exact Hb].
  - split; [discriminate | apply Qle_refl].
Qed.

Lemma fuzzy_pass_sound (norm : str) :
  norm <> [] -> sound_correction (fuzzy_pass distance ratio iter norm).
Proof.
  intros Hn. unfold fuzzy_pass.
  destruct (best_match_spec distance ratio (_all_brands_cached iter) Hn)
    as (_ & _ & Hsome).
  destruct (_best_match distance ratio norm (_all_brands_cached iter))
    as [best score]. cbn [fst snd] in Hsome.
  destruct best as [b|]; [|exact I].
  destruct (Hsome b eq_refl) as (Hin & Hs & Hp).
  assert (H1 : score <= 1)
    by (rewrite Hs; apply similarity_bounds).
  rewrite (@brands_not_empty iter iter_perm b Hin), andb_true_r.
  destruct (Qle_bool (84 # 100) score) eqn:E.
  - destruct (category_of b) as [cat|] eqn:Ec.
    + cbn [sound_correction]. split; [now apply category_of_in|].
      split; [now apply Qle_bool_iff | exact H1].
    + cbn [sound_correction]. split; assumption.
  - cbn [sound_correction]. split; assumption.
Qed.

Lemma correction_sound (store : option str) :
  sound_correction (correct_store_name distance ratio iter store).
Proof.
  unfold correct_store_name.
  destruct store as [[|x t]|]; [exact I | | exact I].
  destruct (normalize_store_name _) as [[|y n]|]; [exact I | | exact I].
  destruct (alias_pass _) as [r|] eqn:Ea;
    [now apply alias_pass_sound in Ea|].
  destruct (contains_pass iter _) as [r|] eqn:Ec;
    [now apply contains_pass_sound in Ec|].
  apply fuzzy_pass_sound. discriminate.
Qed.

(** X2. Whatever it is given, [correct_store_name] returns either no brand
    and no category, with no score or a score above 0 and at most 1, or a
    brand of the dictionary with the category of a set that holds it and a
    score of at least 0.84 and at most 1. *)
Theorem correct_store_name_sound (store : option str) :
  sound_correction (correct_store_name distance ratio iter store).
Proof. apply correction_sound. Qed.

End CorrectionFacts.

Lemma correct_store_name_sound_witness :
  (forall l, Permutation l (written_order l)) /\
  sound_correction
    (correct_store_name levenshtein difflib_ratio written_order
       (Some (lit "JOLIBEE"))).
Proof.
  split; [intros l; apply Permutation_refl|].
  exact (@correct_store_name_sound levenshtein difflib_ratio written_order
           (fun l => Permutation_refl l) (Some (lit "JOLIBEE"))).
Defined.

(* ================================================================== *)
(** * What the cleaning functions leave in a name *)
(* ================================================================== *)

Lemma sub_go_chars (r : regex) (repl : str) (c : ascii) (after : str) :
  forall skip before,
    In c (sub_go r repl skip before after) -> In c after \/ In c repl.
Proof.
  induction after as [|x t IH]; intros skip before.
  - cbn [sub_go]. destruct skip; [|contradiction].
    destruct (hd_error _); [tauto | contradiction].
  - destruct skip as [|k].
    + rewrite sub_go_zero. destruct (hd_error _) as [b|].
      * destruct (_ - _)%nat.
        -- rewrite in_app_iff. intros [H|[<-|H]]; [tauto | left; now left|].
           apply IH in H. destruct H; [left; now right | tauto].
        -- rewrite in_app_iff. intros [H|H]; [tauto|].
           apply IH in H. destruct H; [left; now right | tauto].
      * intros [<-|H]; [left; now left|].
        apply IH in H. destruct H; [left; now right | tauto].
    + cbn [sub_go]. intros H. apply IH in H.
      destruct H; [left; now right | tauto].
Qed.

Lemma sub_chars (r : regex) (repl s : str) (c : ascii) :
  In c (sub r repl s) -> In c s \/ In c repl.
Proof. apply sub_go_chars. Qed.

(** Deleting a class of characters leaves none of them. *)
Lemma sub_chr_deletes (p : ascii -> bool) (c : ascii) (after : str) :
  forall before, In c (sub_go (Chr p) "" 0 before after) -> p c = false.
Proof.
  induction after as [|x t IH]; intros before; [contradiction|].
  rewrite sub_go_zero. cbn [run snd fst].
  destruct (p x) eqn:E; cbn [hd_error snd List.length].
  - replace (S (List.length t) - List.length t)%nat with 1%nat by lia.
    change (lit "") with (@nil ascii). cbn [app]. apply IH.
  - intros [<-|H]; [exact E | eapply IH; exact H].
Qed.

(** Replacing a character by a string without it leaves none of it. *)
Lemma replace_removes (c : ascii) (new s : str) :
  ~ In c new -> ~ In c (replace [c] new s).
Proof.
  intros Hn. unfold replace.
  induction s as [|x t IH]; [intros []|].
  cbn [replace_go startswith List.length Nat.sub].
  destruct (Ascii.eqb c x) eqn:E; cbn [andb].
  - rewrite in_app_iff. intros [H|H]; [now apply Hn | now apply IH].
  - intros [<-|H]; [|now apply IH].
    rewrite Ascii.eqb_refl in E. discriminate.
Qed.

Lemma strip_incl (s : str) (c : ascii) : In c (strip s) -> In c s.
Proof.
  intros H. destruct (strip_middle s) as (l & r & E). rewrite E.
  apply in_or_app. right. apply in_or_app. now left.
Qed.

Lemma firstn_incl (A : Type) (n : nat) (l : list A) (x : A) :
  In x (firstn n l) -> In x l.
Proof.
  intros H. rewrite <- (firstn_skipn n l). apply in_or_app. now left.
Qed.

Lemma first_line_prefix (s : str) : exists r, s = first_line s ++ r.
Proof.
  induction s as [|c t (r & E)]; [exists []; reflexivity|].
  cbn [first_line]. destruct (code c =? 10)%nat.
  - exists (c :: t). reflexivity.
  - exists r. cbn [app]. now f_equal.
Qed.

(** Peeling the replacements off a string in which a character [c] is
    found: [c] was there before, as no replacement brings it in; the
    replacement of [c] itself leaves none. *)
Ltac peel H :=
  repeat
    first
      [ exfalso; revert H; apply replace_removes; vm_compute;
        intuition discriminate
      | apply replace_chars in H as [H|H];
        [|exfalso; vm_compute in H; intuition discriminate] ].

Lemma char_map_no_digit (v : str) (c : ascii) :
  is_digit c = true -> ~ In c (_apply_char_map v).
Proof.
  intros Hd H. unfold _apply_char_map, _CHAR_REPLACEMENTS in H.
  cbn [map fold_left fst snd] in H.
  destruct c as [[] [] [] [] [] [] [] []]; try discriminate Hd; peel H.
Qed.

(** X3. The form in which [_normalize_for_match] compares names holds
    capital letters A to Z only: the digits the pattern would keep have all
    been turned into letters before. *)
Theorem normalize_for_match_letters (s : str) (c : ascii) :
  In c (_normalize_for_match s) -> is_upper c = true.
Proof.
  unfold _normalize_for_match. intros H.
  apply sub_chars in H as [H|[]].
  pose proof (sub_chr_deletes _ _ _ _ H) as Hp. cbv beta in Hp.
  apply sub_chars in H as [H|[]].
  apply negb_false_iff, orb_true_iff in Hp as [Hu|Hd]; [exact Hu|].
  exfalso. eapply char_map_no_digit; eauto.
Qed.

Lemma normalize_for_match_letters_witness :
  In "T"%char (_normalize_for_match (lit "7-Eleven #12")) /\
  is_upper "T"%char = true.
Proof.
  assert (H : In "T"%char (_normalize_for_match (lit "7-Eleven #12")))
    by (vm_compute; tauto).
  split; [exact H|].
  exact (normalize_for_match_letters _ _ H).
Defined.

Lemma to_upper_not_lower (c : ascii) : is_lower (to_upper c) = false.
Proof.
  destruct c as [[] [] [] [] [] [] [] []]; vm_compute; reflexivity.
Qed.

Ltac from_new H := exfalso; vm_compute in H; intuition (subst; discriminate).

Lemma sanitize_no_lower (s : str) (c : ascii) :
  In c (_sanitize_ocr s) -> is_lower c = true -> False.
Proof.
  intros H Hl. unfold _sanitize_ocr in H. destruct s as [|x t]; [contradiction|].
  apply strip_incl in H.
  apply sub_chars in H as [H|H]; [|vm_compute in H; destruct H as [<-|[]];
                                   discriminate].
  apply sub_chars in H as [H|H];
    [|vm_compute in H; repeat (destruct H as [<-|H]; [discriminate|]);
      contradiction].
  repeat (apply replace_chars in H as [H|H];
          [|vm_compute in H; repeat (destruct H as [<-|H]; [discriminate|]);
            contradiction]).
  unfold upper in H. apply in_map_iff in H as (y & <- & _).
  rewrite to_upper_not_lower in Hl. discriminate.
Qed.

(** X4. What [_sanitize_ocr] returns holds no small letter a to z, no white
    space other than single blanks, and no blank at either end. *)
Theorem sanitize_output_shape (s : str) :
  (forall c, In c (_sanitize_ocr s) -> is_lower c = false) /\
  single_spaced (_sanitize_ocr s) /\
  strip (_sanitize_ocr s) = _sanitize_ocr s.
Proof.
  split.
  - intros c H. apply not_true_is_false. intros Hl.
    eapply sanitize_no_lower; eauto.
  - destruct s as [|x t]; [split; reflexivity|].
    apply sanitize_shape. discriminate.
Qed.

(** [\s{2,}] on two white-space characters: the whole run. *)
(** [\s{2,}] on two white-space characters: the whole run. *)
Lemma spaced_after_nonspace (c : ascii) (s : str) :
  is_space c = false ->
  match s with x :: _ => x = c | [] => True end ->
  spaced false s = true -> spaced true s = true.
Proof.
  intros E. destruct s as [|x t]; [reflexivity|]. intros -> H.
  cbn [spaced] in *. now rewrite E in *.
Qed.

(** [\s{2,}] on two white-space characters: the whole run. *)
Lemma run_atleast_two_spaces (b : str) (c d : ascii) (t : str) :
  is_space c = true -> is_space d = true ->
  exists b',
    hd_error (run (AtLeast Space 2) (b, c :: d :: t))
    = Some (b', drop_spaces t).
Proof.
  intros Hc Hd. unfold AtLeast. cbn [run Exactly Space snd fst].
  rewrite Hc. cbn [flat_map snd fst]. rewrite Hd.
  cbn [flat_map app]. rewrite !app_nil_r.
  change (exists b',
             hd_error (star_iter (run Space) (List.length t) (d :: c :: b, t))
             = Some (b', drop_spaces t)).
  apply star_space_hd. lia.
Qed.

(** Replacing the runs of two and more by one blank, in a string whose only
    white space is the blank, leaves single blanks. *)
Lemma sub_go_two_spaces (after : str) :
  (forall x, In x after -> is_space x = true -> x = " "%char) ->
  forall before,
    spaced true (sub_go (AtLeast Space 2) " " (lead after) before after)
    = true /\
    spaced false (sub_go (AtLeast Space 2) " " 0 before after) = true.
Proof.
  induction after as [|c t IH]; intros W before; [split; reflexivity|].
  assert (Wt : forall x, In x t -> is_space x = true -> x = " "%char)
    by (intros x Hx; apply W; now right).
  specialize (IH Wt).
  assert (B : spaced false (sub_go (AtLeast Space 2) " " 0 before (c :: t))
              = true).
  { rewrite sub_go_zero. destruct (is_space c) eqn:E.
    - assert (Hc : c = " "%char) by (apply W; [now left | exact E]).
      destruct t as [|d t'].
      + rewrite run_two_spaces by (intros _; exact I).
        cbn [hd_error sub_go spaced]. subst c. reflexivity.
      + destruct (is_space d) eqn:Ed.
        * destruct (@run_atleast_two_spaces before c d t' E Ed) as (b' & ->).
          cbn [snd].
          replace (List.length (c :: d :: t')
                   - List.length (drop_spaces t'))%nat
            with (S (lead (d :: t'))).
          -- change (lit " ") with [" "%char]. cbn [app spaced].
             change (is_space " "%char) with true. cbn [negb andb].
             rewrite Ascii.eqb_refl. cbn [andb]. apply IH.
          -- cbn [lead]. rewrite Ed. rewrite <- lead_drop.
             pose proof (drop_spaces_length t'). cbn [List.length]. lia.
        * rewrite run_two_spaces by (intros _; exact Ed).
          cbn [hd_error spaced]. rewrite E. subst c.
          rewrite Ascii.eqb_refl. cbn [negb andb].
          destruct (IH (" "%char :: before)) as [IH1 _].
          cbn [lead] in IH1. rewrite Ed in IH1. exact IH1.
    - rewrite run_two_spaces by (intros H; congruence).
      cbn [hd_error spaced]. rewrite E. apply IH. }
  split; [|exact B].
  cbn [lead]. destruct (is_space c) eqn:E.
  - cbn [sub_go]. apply IH.
  - rewrite sub_go_zero in *.
    rewrite run_two_spaces in * by (intros H; congruence).
    cbn [hd_error spaced] in *. now rewrite E in *.
Qed.

Lemma first_line_incl (s : str) (c : ascii) : In c (first_line s) -> In c s.
Proof.
  intros H. destruct (first_line_prefix s) as (r & E). rewrite E.
  apply in_or_app. now left.
Qed.

Lemma cut_name_chars (x : str) (c : ascii) :
  In c (cut_name x) -> In c (_sanitize_ocr x).
Proof.
  unfold cut_name. cbv zeta. intros H.
  apply sub_chars in H as [H|[]].
  assert (H' : In c (if existsb (fun c => (code c =? 10)%nat) (_sanitize_ocr x)
                     then first_line (_sanitize_ocr x) else _sanitize_ocr x)).
  { destruct (search _ _ _); [now apply firstn_incl in H | exact H]. }
  destruct (existsb _ _); [now apply first_line_incl | exact H'].
Qed.

Lemma normalize_by_cut (x y : str) :
  normalize_store_name (Some x) = Some y ->
  y = strip (sub (AtLeast Space 2) " " (cut_name x)).
Proof.
  unfold normalize_store_name. destruct x as [|a t]; [discriminate|].
  intros [= <-]. reflexivity.
Qed.

(** X5. A name [normalize_store_name] returns holds no small letter a to z,
    no white space other than single blanks, and no blank at either end. *)
Theorem normalize_output_shape (store : option str) (y : str) :
  normalize_store_name store = Some y ->
  (forall c, In c y -> is_lower c = false) /\
  single_spaced y /\
  strip y = y.
Proof.
  destruct store as [x|]; [|discriminate].
  intros H. apply normalize_by_cut in H. subst y.
  assert (L : forall c, In c (_sanitize_ocr x) -> is_lower c = false).
  { intros c Hc. apply not_true_is_false. intros Hl.
    eapply sanitize_no_lower; eauto. }
  assert (Sp : single_spaced (_sanitize_ocr x)).
  { destruct x as [|a t]; [reflexivity|]. apply sanitize_shape. discriminate. }
  split; [|split].
  - intros c H. apply strip_incl in H.
    apply sub_chars in H as [H|H].
    + apply L. now apply cut_name_chars.
    + vm_compute in H. destruct H as [<-|[]]. reflexivity.
  - apply spaced_strip. apply sub_go_two_spaces.
    intros c H Hc. apply cut_name_chars in H.
    exact (spaced_chars _ _ _ Sp H Hc).
  - apply strip_idempotent.
Qed.

Lemma normalize_output_shape_witness :
  normalize_store_name (Some (lit "Jollibee  Foods Corp Tel 123"))
  = Some (lit "JOLLIBEE FOODS") /\
  (forall c, In c (lit "JOLLIBEE FOODS") -> is_lower c = false) /\
  single_spaced (lit "JOLLIBEE FOODS") /\
  strip (lit "JOLLIBEE FOODS") = lit "JOLLIBEE FOODS".
Proof.
  assert (H : normalize_store_name (Some (lit "Jollibee  Foods Corp Tel 123"))
              = Some (lit "JOLLIBEE FOODS")) by (vm_compute; reflexivity).
  split; [exact H|].
  exact (normalize_output_shape _ H).
Defined.

(* ================================================================== *)
(** * More on the reconciliation of the sources *)
(* ================================================================== *)






(** A key that is NaN is greater than none and smaller than none: the
    element [max] holds is replaced by elements whose key is a number
    only, and never when its own key is NaN. *)
Lemma max_from_nan (A : Type) (key : A -> pyfloat) (l : list A) :
  forall best,
    (key best = NaN -> max_from pyfloat_gtb key best l = best) /\
    (max_from pyfloat_gtb key best l = best \/
     exists q, key (max_from pyfloat_gtb key best l) = Fin q).
Proof.
  induction l as [|x t IH]; intros best; cbn [max_from]; [auto|].
  destruct (pyfloat_gtb (key x) (key best)) eqn:E.
  - split.
    + intros H. rewrite H in E. destruct (key x); discriminate.
    + destruct (IH x) as [_ [->|H]]; [|now right].
      right. destruct (key x) as [q|]; [eauto | discriminate].
  - apply IH.
Qed.

Lemma nan_score_first (c : Candidate) (cs : list Candidate) :
  score c = NaN -> select_best (c :: cs) = Some (0%nat, c).
Proof.
  intros H. unfold select_best, max_by, enumerate. cbn [enumerate_from].
  destruct (max_from_nan (fun ic : nat * Candidate => score (snd ic))
              (enumerate_from 1 cs) (0%nat, c)) as [H1 _].
  now rewrite H1.
Qed.

(** X7. A candidate whose score is NaN is selected only when it is the
    first of the list; and the first is selected whenever its score is NaN,
    whatever the others hold. *)
Theorem nan_score_selected_iff_first (c : Candidate) (cs : list Candidate) :
  (score c = NaN -> select_best (c :: cs) = Some (0%nat, c)) /\
  (forall i best,
      select_best (c :: cs) = Some (i, best) -> score best = NaN ->
      i = 0%nat).
Proof.
  unfold select_best, max_by, enumerate. cbn [enumerate_from].
  destruct (max_from_nan (fun ic : nat * Candidate => score (snd ic))
              (enumerate_from 1 cs) (0%nat, c)) as [H1 H2].
  split.
  - apply nan_score_first.
  - intros i best [= E] Hn. rewrite E in H2.
    destruct H2 as [[= -> _]|(q & Hq)]; [reflexivity|].
    cbn [snd] in Hq. congruence.
Qed.

(** X8. When Tesseract reports a mean confidence that is NaN (it does when
    it reads no word), [resolve_fields] selects the Tesseract candidate
    whatever the other sources return, and its tag is "tesseract" or
    "consensus". *)
Theorem nan_confidence_selects_tesseract (p : str -> option str)
  (rec : OcrRecord) (ocrs : OcrSpace) (vision : Vision)
  (paddle : option PaddleCandidate) :
  select_best (candidates_of p rec (Some NaN) ocrs vision paddle)
  = Some (0%nat, tesseract_candidate p rec (Some NaN)) /\
  (r_tag (resolve_fields p rec (Some NaN) ocrs vision paddle)
   = lit "tesseract" \/
   r_tag (resolve_fields p rec (Some NaN) ocrs vision paddle)
   = lit "consensus").
Proof.
  assert (Hs : score (tesseract_candidate p rec (Some NaN)) = NaN).
  { unfold tesseract_candidate.
    destruct (parse_fields_from_ocr p rec) as [[? ?] ?].
    destruct (parse_fields p (rec_text rec)) as [[? ?] ?].
    reflexivity. }
  assert (Hb : select_best (candidates_of p rec (Some NaN) ocrs vision paddle)
               = Some (0%nat, tesseract_candidate p rec (Some NaN))).
  { unfold candidates_of. cbn [app].
    apply nan_score_first. exact Hs. }
  split; [exact Hb|].
  unfold r_tag, resolve_fields. rewrite (reconcile_tag _ Hb).
  destruct (existsb _ _); [now right | left].
  unfold tesseract_candidate.
  destruct (parse_fields_from_ocr p rec) as [[? ?] ?].
  destruct (parse_fields p (rec_text rec)) as [[? ?] ?].
  reflexivity.
Qed.

Lemma str_eqb_sym (a b : str) : str_eqb a b = str_eqb b a.
Proof.
  unfold str_eqb.
  destruct (list_eq_dec ascii_dec a b), (list_eq_dec ascii_dec b a);
    congruence.
Qed.

Lemma close_amt_sym (a b : option Q) : close_amt a b = close_amt b a.
Proof.
  destruct a as [x|], b as [y|]; try reflexivity. cbn [close_amt].
  now rewrite (Qabs_Qminus x y).
Qed.

Lemma eq_store_sym (a b : option str) : eq_store a b = eq_store b a.
Proof.
  destruct a as [x|], b as [y|]; try reflexivity. cbn [eq_store].
  rewrite (str_eqb_sym (upper (strip x))).
  now rewrite (andb_comm (is_truthy (Some x))).
Qed.

(** X9. Agreement between two candidates does not depend on which of the
    two is the best one. *)
Theorem agrees_symmetric (a b : Candidate) : agrees a b = agrees b a.
Proof.
  unfold agrees. rewrite eq_store_sym, close_amt_sym. f_equal.
  destruct (c_date a) as [x|], (c_date b) as [y|]; try reflexivity.
  cbn [option_str_eqb]. now rewrite str_eqb_sym.
Qed.

Lemma first_non_null_none (A : Type) (l : list (option A)) :
  first_non_null l = None <-> forall o, In o l -> o = None.
Proof.
  induction l as [|[x|] t IH]; cbn [first_non_null].
  - split; [intros _ o [] | reflexivity].
  - split; [discriminate|]. intros H. apply (H (Some x)). now left.
  - rewrite IH. split.
    + intros H o [<-|Ho]; auto.
    + intros H o Ho. apply H. now right.
Qed.

Lemma first_non_null_in (A : Type) (l : list (option A)) (x : A) :
  first_non_null l = Some x -> In (Some x) l.
Proof.
  induction l as [|[y|] t IH]; cbn [first_non_null]; [discriminate| |].
  - intros [= ->]. now left.
  - intros H. right. auto.
Qed.

Lemma first_truthy_none (l : list (option str)) :
  first_truthy l = None -> forall o, In o l -> is_truthy o = false.
Proof.
  induction l as [|o t IH]; cbn [first_truthy]; [intros _ ? []|].
  destruct (is_truthy o) eqn:E.
  - intros ->. discriminate.
  - intros H o' [<-|Ho]; auto.
Qed.

Lemma first_truthy_in (l : list (option str)) (x : str) :
  first_truthy l = Some x -> In (Some x) l /\ x <> [].
Proof.
  induction l as [|o t IH]; cbn [first_truthy]; [discriminate|].
  destruct (is_truthy o) eqn:E.
  - intros ->. split; [now left|]. intros ->. discriminate.
  - intros H. destruct (IH H). split; [now right | assumption].
Qed.

Lemma in_sorted_fields (A : Type) (f : Candidate -> A)
  (cs : list Candidate) (x : A) :
  In x (map f (sorted_by Qle_bool c_priority cs)) <->
  exists c, In c cs /\ f c = x.
Proof.
  rewrite in_map_iff. split; intros (c & H1 & H2).
  - exists c. split; [|exact H1].
    eapply Permutation_in; [|exact H2].
    apply Permutation_sym, sorted_by_perm.
  - exists c. split; [exact H2|].
    eapply Permutation_in; [|exact H1]. apply sorted_by_perm.
Qed.

Lemma reconcile_parts (cs : list Candidate) :
  (cs = [] /\ reconcile cs = (None, None, None, lit "unknown")) \/
  exists i best,
    select_best cs = Some (i, best) /\ In best cs /\
    r_store (reconcile cs)
    = filled (c_store best)
        (first_truthy (map c_store (sorted_by Qle_bool c_priority cs))) /\
    r_total (reconcile cs)
    = filled (c_total best)
        (first_non_null (map c_total (sorted_by Qle_bool c_priority cs))) /\
    r_date (reconcile cs)
    = filled (c_date best)
        (first_truthy (map c_date (sorted_by Qle_bool c_priority cs))).
Proof.
  destruct cs as [|c0 cs']; [left; split; reflexivity|]. right.
  destruct (@select_best_some (c0 :: cs')) as (i & best & Hb); [discriminate|].
  exists i, best. split; [exact Hb|].
  split; [eapply nth_error_In, select_best_in; exact Hb|].
  pose proof (reconcile_fields _ Hb) as E. cbv zeta in E.
  unfold r_store, r_total, r_date. rewrite E. cbn [fst snd]. auto.
Qed.

(** X10. The total [resolve_fields] returns is null exactly when the total
    of every candidate is null; and when the store (or the date) returned
    is null, every candidate's store (or date) is null or empty. *)
Theorem reconcile_null_fields (cs : list Candidate) :
  (r_total (reconcile cs) = None <->
   forall c, In c cs -> c_total c = None) /\
  (r_store (reconcile cs) = None ->
   forall c, In c cs -> is_truthy (c_store c) = false) /\
  (r_date (reconcile cs) = None ->
   forall c, In c cs -> is_truthy (c_date c) = false).
Proof.
  destruct (reconcile_parts cs)
    as [[-> ->]|(i & best & Hb & Hin & Es & Et & Ed)].
  - cbn. repeat split; auto; intros _ c [].
  - rewrite Es, Et, Ed. split; [split|split].
    + destruct (c_total best) eqn:E; cbn [filled]; [discriminate|].
      intros H c Hc. rewrite first_non_null_none in H.
      apply H. apply in_sorted_fields. eauto.
    + intros H. destruct (c_total best) eqn:E; cbn [filled].
      * rewrite (H _ Hin) in E. discriminate.
      * apply first_non_null_none. intros o Ho.
        apply in_sorted_fields in Ho as (c & Hc & <-). auto.
    + destruct (c_store best) eqn:E; cbn [filled]; [discriminate|].
      intros H c Hc. apply (first_truthy_none _ H).
      apply in_sorted_fields. eauto.
    + destruct (c_date best) eqn:E; cbn [filled]; [discriminate|].
      intros H c Hc. apply (first_truthy_none _ H).
      apply in_sorted_fields. eauto.
Qed.

(** X11. [resolve_fields] makes up no value: a store, a total or a date it
    returns is the store, the total or the date of one of the candidates;
    and a field the best candidate holds is returned as it is, the empty
    string included. *)
Theorem reconcile_fields_from_candidates (cs : list Candidate) :
  (forall s, r_store (reconcile cs) = Some s ->
             exists c, In c cs /\ c_store c = Some s) /\
  (forall t, r_total (reconcile cs) = Some t ->
             exists c, In c cs /\ c_total c = Some t) /\
  (forall d, r_date (reconcile cs) = Some d ->
             exists c, In c cs /\ c_date c = Some d) /\
  (forall i best,
      select_best cs = Some (i, best) ->
      (c_store best <> None -> r_store (reconcile cs) = c_store best) /\
      (c_total best <> None -> r_total (reconcile cs) = c_total best) /\
      (c_date best <> None -> r_date (reconcile cs) = c_date best)).
Proof.
  destruct (reconcile_parts cs)
    as [[-> ->]|(i & best & Hb & Hin & Es & Et & Ed)].
  - cbn. repeat split; discriminate.
  - rewrite Es, Et, Ed. split; [|split; [|split]].
    + intros s. destruct (c_store best) eqn:E; cbn [filled].
      * intros [= ->]. eauto.
      * intros H. apply first_truthy_in in H as [H _].
        now apply in_sorted_fields in H.
    + intros t. destruct (c_total best) eqn:E; cbn [filled].
      * intros [= ->]. eauto.
      * intros H. apply first_non_null_in in H.
        now apply in_sorted_fields in H.
    + intros d. destruct (c_date best) eqn:E; cbn [filled].
      * intros [= ->]. eauto.
      * intros H. apply first_truthy_in in H as [H _].
        now apply in_sorted_fields in H.
    + intros i' best' Hb'. rewrite Hb in Hb'. injection Hb' as <- <-.
      repeat split.
      * destruct (c_store best); [reflexivity | congruence].
      * destruct (c_total best); [reflexivity | congruence].
      * destruct (c_date best); [reflexivity | congruence].
Qed.

(** X12. When neither OCR.space nor Google Vision has answered and there
    is no PaddleOCR-VL candidate, [resolve_fields] returns the fields of
    the Tesseract candidate and the tag "tesseract". *)
Theorem resolve_single_source (p : str -> option str) (rec : OcrRecord)
  (conf : option pyfloat) (ocrs : OcrSpace) (vision : Vision) :
  os_ok ocrs = false -> v_ok vision = false ->
  resolve_fields p rec conf ocrs vision None =
  (c_store (tesseract_candidate p rec conf),
   c_total (tesseract_candidate p rec conf),
   c_date (tesseract_candidate p rec conf),
   lit "tesseract").
Proof.
  intros Ho Hv. unfold resolve_fields, candidates_of.
  unfold ocr_space_candidate, vision_candidate, paddle_candidate.
  rewrite Ho, Hv. cbn [app].
  set (t := tesseract_candidate p rec conf).
  assert (Hsrc : c_source t = lit "tesseract").
  { unfold t, tesseract_candidate.
    destruct (parse_fields_from_ocr p rec) as [[? ?] ?].
    destruct (parse_fields p (rec_text rec)) as [[? ?] ?]. reflexivity. }
  unfold reconcile, select_best, max_by, enumerate.
  cbn [enumerate_from max_from existsb fst Nat.eqb negb andb orb].
  change (sorted_by Qle_bool c_priority [t]) with [t].
  rewrite fold_backfill, Hsrc. clearbody t.
  cbn [map first_truthy first_non_null].
  destruct (c_store t) as [[|? ?]|], (c_total t), (c_date t) as [[|? ?]|];
    reflexivity.
Qed.

Lemma resolve_single_source_witness :
  resolve_fields iso_verbatim empty_store_rec None
    (mkOcrSpace false "") no_vision None =
  (c_store (tesseract_candidate iso_verbatim empty_store_rec None),
   c_total (tesseract_candidate iso_verbatim empty_store_rec None),
   c_date (tesseract_candidate iso_verbatim empty_store_rec None),
   lit "tesseract").
Proof.
  apply resolve_single_source; reflexivity.
Defined.

(* ================================================================== *)
(** * The category by rule *)
(* ================================================================== *)

Lemma keyword_match_names (text_low cat : str) :
  _keyword_match text_low = Some cat ->
  In cat category_names /\ cat <> [].
Proof.
  unfold _keyword_match.
  repeat (destruct (any_in _ text_low);
          [intros [= <-]; split; [vm_compute; tauto | discriminate]|]).
  discriminate.
Qed.

Section RuleFacts.

Variable distance : str -> str -> nat.
Variable ratio : str -> str -> Q.
Variable iter : list str -> list str.
Hypothesis iter_perm : forall l, Permutation l (iter l).

(** X13. No store is ever corrected to "UNIQLO": the two aliases of
    [ALIAS_MAP] that name it have no effect, as no brand set holds it. *)
Theorem uniqlo_never_returned (store : option str) :
  fst (fst (correct_store_name distance ratio iter store))
  <> Some (lit "UNIQLO").
Proof.
  pose proof (@correction_sound distance ratio iter iter_perm store) as H.
  destruct (correct_store_name distance ratio iter store) as [[b c] q].
  cbn [fst]. intros ->. cbn [sound_correction] in H.
  destruct c as [cat|]; [|contradiction]. destruct q as [q|]; [|contradiction].
  destruct H as [(brands & kws & Hin & Hb) _].
  vm_compute in Hin.
  repeat (destruct Hin as [[= <- <- <-]|Hin];
          [vm_compute in Hb; intuition discriminate|]).
  contradiction.
Qed.

(** X14. [rule_category] returns no category and no reason, or one of the
    five category names with a reason.  When the reason is the brand, the
    brand and the score formatted into it are not null (the format does not
    raise), the brand belongs to a brand set of the category returned and
    the score is at least 0.84; when it is "keywords", the store gave no
    category and the category is the one the keywords of the text give. *)
Theorem rule_category_sound (ocr_text : str) (store : option str) :
  match rule_category distance ratio iter ocr_text store with
  | (None, None) =>
      _keyword_match (lower ocr_text) = None
  | (Some cat, Some (brand_reason (Some b) (Some q))) =>
      In cat category_names /\
      (exists brands kws, In (cat, brands, kws) ALL_SETS /\ In b brands) /\
      84 # 100 <= q /\
      correct_store_name distance ratio iter store
      = (Some b, Some cat, Some q)
  | (Some cat, Some keywords_reason) =>
      In cat category_names /\
      _keyword_match (lower ocr_text) = Some cat /\
      is_truthy (snd (fst (correct_store_name distance ratio iter store)))
      = false
  | _ => False
  end.
Proof.
  unfold rule_category.
  pose proof (@correction_sound distance ratio iter iter_perm store) as H.
  destruct (correct_store_name distance ratio iter store) as [[b c] q].
  cbn [fst snd].
  destruct (is_truthy c) eqn:Ec.
  - destruct c as [cat|]; [|discriminate].
    destruct b as [b|]; [|contradiction].
    destruct q as [q|]; [|destruct H].
    cbn [sound_correction] in H. destruct H as [Hb [Hq _]].
    split; [|auto].
    destruct Hb as (brands & kws & Hin & _). unfold category_names.
    apply in_map_iff. exists (cat, brands, kws). auto.
  - destruct (_keyword_match (lower ocr_text)) as [cat|] eqn:Ek.
    + destruct (keyword_match_names _ Ek) as [Hn Hne].
      destruct cat as [|x t]; [congruence|]. cbn [is_truthy]. auto.
    + reflexivity.
Qed.

End RuleFacts.

Lemma uniqlo_never_returned_witness :
  (forall l, Permutation l (written_order l)) /\
  fst (fst (correct_store_name levenshtein difflib_ratio written_order
              (Some (lit "WWW.UNIQLO.COM"))))
  <> Some (lit "UNIQLO").
Proof.
  split; [intros l; apply Permutation_refl|].
  exact (@uniqlo_never_returned levenshtein difflib_ratio written_order
           (fun l => Permutation_refl l) (Some (lit "WWW.UNIQLO.COM"))).
Defined.

Lemma rule_category_sound_witness :
  (forall l, Permutation l (written_order l)) /\
  match rule_category levenshtein difflib_ratio written_order
          (lit "1 pc Chicken meal") (Some (lit "JOLLIBEE")) with
  | (None, None) => False
  | (Some cat, Some (brand_reason (Some b) (Some q))) =>
      In cat category_names /\
      (exists brands kws, In (cat, brands, kws) ALL_SETS /\ In b brands) /\
      84 # 100 <= q /\
      correct_store_name levenshtein difflib_ratio written_order
        (Some (lit "JOLLIBEE"))
      = (Some b, Some cat, Some q)
  | (Some cat, Some keywords_reason) => False
  | _ => False
  end.
Proof.
  split; [intros l; apply Permutation_refl|].
  pose proof (@rule_category_sound levenshtein difflib_ratio written_order
                (fun l => Permutation_refl l)
                (lit "1 pc Chicken meal") (Some (lit "JOLLIBEE"))) as H.
  assert (E : rule_category levenshtein difflib_ratio written_order
                (lit "1 pc Chicken meal") (Some (lit "JOLLIBEE"))
              = (Some (lit "Food"),
                 Some (brand_reason (Some (lit "JOLLIBEE")) (Some 1))))
    by (vm_compute; reflexivity).
  rewrite E in *. exact H.
Defined.

(* ================================================================== *)
(** * The aliases *)
(* ================================================================== *)

(** X15. A store whose normalised name holds GOLDEN ARCHES is corrected to
    MCDONALD'S, of category Food, with score 1, whatever else the name
    holds: the aliases come before the brands. *)
Theorem golden_arches_is_mcdonalds (distance : str -> str -> nat)
  (ratio : str -> str -> Q) (iter : list str -> list str)
  (store norm : str) :
  normalize_store_name (Some store) = Some norm ->
  contains "GOLDEN ARCHES" (upper norm) = true ->
  correct_store_name distance ratio iter (Some store)
  = (Some (lit "MCDONALD'S"), Some (lit "Food"), Some 1).
Proof.
  intros Hn Hc. unfold correct_store_name.
  destruct store as [|x t]; [discriminate|]. rewrite Hn.
  assert (Hne : norm <> []).
  { intros ->. discriminate. }
  destruct norm as [|y n]; [congruence|].
  unfold alias_pass, ALIAS_MAP. cbn [map first_some fst snd].
  rewrite Hc. reflexivity.
Qed.

Lemma golden_arches_is_mcdonalds_witness :
  correct_store_name levenshtein difflib_ratio written_order
    (Some (lit "Golden Arches Dev Corp - Jollibee"))
  = (Some (lit "MCDONALD'S"), Some (lit "Food"), Some 1).
Proof.
  apply (@golden_arches_is_mcdonalds levenshtein difflib_ratio written_order
           (lit "Golden Arches Dev Corp - Jollibee")
           (lit "GOLDEN ARCHES DEV - JOLLIBEE")); vm_compute; reflexivity.
Defined.

(* ================================================================== *)
(** * Where a match lies and what it holds *)
(* ================================================================== *)

Lemma all_ascii_complete (c : ascii) : In c all_ascii.
Proof.
  unfold all_ascii. rewrite <- (ascii_nat_embedding c).
  apply in_map, in_seq. pose proof (nat_ascii_bounded c). lia.
Qed.

Lemma span_of (a b : pos) (w : str) :
  snd a = w ++ snd b -> span a b = w.
Proof.
  intros E. unfold span. rewrite E, length_app, Nat.add_sub.
  rewrite firstn_app, Nat.sub_diag, firstn_all. cbn [firstn].
  apply app_nil_r.
Qed.

Lemma moved_snd (P : ascii -> bool) (a b : pos) :
  moved P a b -> snd a = span a b ++ snd b.
Proof. intros H. now apply moved_span in H. Qed.

Lemma run_needs (p : ascii -> bool) (r : regex) :
  needs p r = true ->
  forall a b, In b (run r a) ->
              exists c, In c (span a b) /\ p c = true.
Proof.
  induction r as [|q|r1 IH1 r2 IH2|r1 IH1 r2 IH2|r IH| |];
    cbn [needs]; try discriminate; intros Hn a b Hb.
  - cbn [run] in Hb. destruct a as [bf [|c t]]; [contradiction|].
    cbn [snd fst] in Hb. destruct (q c) eqn:E; [|contradiction].
    destruct Hb as [<-|[]].
    rewrite forallb_forall in Hn. specialize (Hn c (all_ascii_complete c)).
    rewrite E in Hn. cbn [implb] in Hn.
    exists c. split; [|exact Hn].
    replace (span _ _) with [c]; [now left|].
    symmetry. apply span_of. reflexivity.
  - cbn [run] in Hb. apply in_flat_map in Hb as (m & Hm & Hb).
    pose proof (moved_snd (run_moved _ _ _ Hm)) as E1.
    pose proof (moved_snd (run_moved _ _ _ Hb)) as E2.
    assert (Es : span a b = span a m ++ span m b).
    { apply span_of. rewrite E1 at 1. rewrite E2 at 1.
      now rewrite app_assoc. }
    rewrite Es. apply orb_true_iff in Hn as [Hn|Hn].
    + destruct (IH1 Hn _ _ Hm) as (c & Hc & Hp).
      exists c. split; [apply in_or_app; now left | exact Hp].
    + destruct (IH2 Hn _ _ Hb) as (c & Hc & Hp).
      exists c. split; [apply in_or_app; now right | exact Hp].
  - cbn [run] in Hb. apply andb_true_iff in Hn as [Hn1 Hn2].
    apply in_app_iff in Hb as [Hb|Hb]; eauto.
Qed.

Lemma match_at_inside (pre grp : regex) (st a b : pos) :
  match_at pre grp st = Some (a, b) ->
  inside (span a b) (snd st) /\
  forall p, needs p grp = true -> exists c, In c (span a b) /\ p c = true.
Proof.
  intros H. split.
  - apply match_at_moved in H as [H1 H2].
    apply moved_snd in H1, H2.
    exists (span st a), (snd b). rewrite H1 at 1. now rewrite H2 at 1.
  - intros p Hn. unfold match_at in H. apply hd_error_in in H.
    apply in_flat_map in H as (m & Hm & Hb).
    apply in_map_iff in Hb as (b' & E & Hb). injection E as -> ->.
    eapply run_needs; eauto.
Qed.

Lemma inside_cons (g s : str) (c : ascii) : inside g s -> inside g (c :: s).
Proof. intros (l & r & ->). exists (c :: l), r. reflexivity. Qed.

Lemma search_go_inside (pre grp : regex) (after : str) :
  forall before m,
    search_go pre grp before after = Some m ->
    inside (group1 m) after /\
    forall p, needs p grp = true ->
              exists c, In c (group1 m) /\ p c = true.
Proof.
  induction after as [|c t IH]; intros before m; cbn [search_go].
  - destruct (match_at _ _ _) as [[a b]|] eqn:E; [|discriminate].
    intros [= <-]. cbn [group1]. apply (match_at_inside _ _ _ E).
  - destruct (match_at _ _ _) as [[a b]|] eqn:E.
    + intros [= <-]. cbn [group1]. apply (match_at_inside _ _ _ E).
    + intros H. destruct (IH _ _ H) as [H1 H2].
      split; [now apply inside_cons | exact H2].
Qed.

Lemma search_group_inside (pre grp : regex) (s g : str) :
  search_group pre grp s = Some g ->
  inside g s /\
  forall p, needs p grp = true -> exists c, In c g /\ p c = true.
Proof.
  unfold search_group, search.
  destruct (search_go pre grp [] s) as [m|] eqn:E; [|discriminate].
  intros [= <-]. eapply search_go_inside; exact E.
Qed.

Lemma finditer_go_inside (pre grp : regex) (after : str) :
  forall skip before g,
    In g (finditer_go pre grp skip before after) ->
    inside g after /\
    forall p, needs p grp = true -> exists c, In c g /\ p c = true.
Proof.
  induction after as [|c t IH]; intros skip before g; cbn [finditer_go];
    [contradiction|].
  assert (K : forall k bf, In g (finditer_go pre grp k bf t) ->
                inside g (c :: t) /\
                forall p, needs p grp = true ->
                          exists c, In c g /\ p c = true).
  { intros k bf H. destruct (IH _ _ _ H) as [H1 H2].
    split; [now apply inside_cons | exact H2]. }
  destruct skip as [|k]; [|apply K].
  destruct (match_at _ _ _) as [[a b]|] eqn:E; [|apply K].
  intros [<-|H]; [|eapply K; exact H].
  apply (match_at_inside _ _ _ E).
Qed.

Lemma finditer_inside (pre grp : regex) (s g : str) :
  In g (finditer pre grp s) ->
  inside g s /\
  forall p, needs p grp = true -> exists c, In c g /\ p c = true.
Proof. apply finditer_go_inside. Qed.

Lemma inside_incl (g s : str) (c : ascii) : inside g s -> In c g -> In c s.
Proof.
  intros (l & r & ->) H. apply in_or_app. right. apply in_or_app. now left.
Qed.





(* ================================================================== *)
(** * Where the date and the total come from *)
(* ================================================================== *)







Lemma fold_best_update_in (ms : list (Q * Q)) (v : Q) :
  forall st,
    fst (fold_left best_update ms st) = Some v ->
    fst st = Some v \/ exists s, In (v, s) ms.
Proof.
  induction ms as [|[val sc] ms IH]; intros st; cbn [fold_left]; [auto|].
  intros H. apply IH in H as [H|(s & Hs)].
  - unfold best_update in H. destruct st as [bv bs].
    match type of H with
    | fst (if ?b then _ else _) = _ => destruct b
    end.
    + cbn [fst] in H. injection H as ->. right. exists sc. now left.
    + now left.
  - right. exists s. now right.
Qed.

Lemma amt_needs_digit : needs is_digit AMT_grp = true.
Proof. vm_compute. reflexivity. Qed.

Lemma in_enumerate_in (A : Type) (l : list A) (i : nat) (x : A) :
  In (i, x) (enumerate l) -> In x l.
Proof. intros H. eapply nth_error_In, enumerate_nth. exact H. Qed.

(** A total of the text-only extractor: the value of an amount found on a
    line that is not low-priority. *)
Lemma textonly_total_source (text : str) (v : Q) :
  extract_total_textonly text = Some v ->
  exists line g,
    In line (nonblank_lines text) /\
    _is_low_priority_line line = false /\
    inside g line /\ (exists c, In c g /\ is_digit c = true) /\
    amount_value g = Some v.
Proof.
  unfold extract_total_textonly. cbv zeta.
  set (lines := nonblank_lines text).
  destruct (first_some _ _) as [w|] eqn:E.
  - intros [= ->]. apply first_some_some in E as ([i line] & Hin & E).
    unfold keyword_line_amount in E.
    destruct (_is_low_priority_line line) eqn:Elow; [discriminate|].
    destruct (any_in TOTAL_KEYS (lower line)); [|discriminate].
    destruct (search_group AMT_pre AMT_grp line) as [g|] eqn:Eg.
    + apply search_group_inside in Eg as [G1 G2].
      exists line, g. split; [eapply in_enumerate_in; exact Hin|].
      split; [exact Elow|]. split; [exact G1|].
      split; [apply G2, amt_needs_digit | exact E].
    + destruct (_ <? _)%nat eqn:Elt; [|discriminate]. cbn [andb] in E.
      destruct (_is_low_priority_line (nth (i + 1) lines [])) eqn:Elow';
        [discriminate|]. cbn [negb] in E.
      destruct (search_group AMT_pre AMT_grp (nth (i + 1) lines []))
        as [g|] eqn:Eg'; [|discriminate].
      apply search_group_inside in Eg' as [G1 G2].
      exists (nth (i + 1) lines []), g.
      split; [apply nth_In; now apply Nat.ltb_lt|].
      split; [exact Elow'|]. split; [exact G1|].
      split; [apply G2, amt_needs_digit | exact E].
  - rewrite best_amount_fold. intros H.
    apply fold_best_update_in in H as [H|(s & Hs)]; [discriminate|].
    unfold amount_matches in Hs.
    apply in_flat_map in Hs as ([i line] & Hin & Hs).
    unfold line_matches in Hs.
    destruct (_is_low_priority_line line) eqn:Elow; [contradiction|].
    apply in_flat_map in Hs as (g & Hg & Hs).
    destruct (amount_value g) as [val|] eqn:Ev; [|contradiction].
    destruct Hs as [[= -> _]|[]].
    apply finditer_inside in Hg as [G1 G2].
    exists line, g. split; [eapply in_enumerate_in; exact Hin|].
    split; [exact Elow|]. split; [exact G1|].
    split; [apply G2, amt_needs_digit | exact Ev].
Qed.

(** X17. A total the text-only extractor returns is the value of an amount
    that stands on a line of the text which is not a payment, cash or
    change line; the amount holds a digit. *)
Theorem textonly_total_from_kept_line (text : str) (v : Q) :
  extract_total_textonly text = Some v ->
  exists line g,
    In line (nonblank_lines text) /\
    _is_low_priority_line line = false /\
    inside g line /\ amount_value g = Some v.
Proof.
  intros H.
  destruct (textonly_total_source _ H) as (line & g & H1 & H2 & H3 & _ & H5).
  eauto 6.
Qed.

Lemma textonly_total_from_kept_line_witness :
  extract_total_textonly two_amounts_text = Some (500 # 100) /\
  exists line g,
    In line (nonblank_lines two_amounts_text) /\
    _is_low_priority_line line = false /\
    inside g line /\ amount_value g = Some (500 # 100).
Proof.
  assert (H : extract_total_textonly two_amounts_text = Some (500 # 100))
    by (vm_compute; reflexivity).
  split; [exact H|].
  exact (textonly_total_from_kept_line two_amounts_text H).
Defined.



(* ================================================================== *)
(** * The Tesseract candidate and the layout-aware total *)
(* ================================================================== *)

(** X19. The second parse of the Tesseract text in [resolve_fields] can
    change the total only: the store and the date of the Tesseract
    candidate are those read from the text, and its total is the
    layout-aware one or, when that is null, the text-only one. *)
Theorem tesseract_candidate_fields (p : str -> option str)
  (rec : OcrRecord) (conf : option pyfloat) :
  let c := tesseract_candidate p rec conf in
  c_source c = lit "tesseract" /\
  c_store c = extract_store (rec_text rec) /\
  c_date c = extract_date p (rec_text rec) /\
  c_total c =
    or_else
      (extract_total_layout (rec_words rec)
         (match rec_amount_pass rec with
          | [] => rec_text rec
          | a => a
          end))
      (extract_total_textonly (rec_text rec)).
Proof.
  unfold tesseract_candidate, parse_fields_from_ocr, parse_fields.
  cbn [c_source c_store c_date c_total].
  repeat split.
  - destruct (is_truthy (extract_store (rec_text rec))); reflexivity.
  - destruct (is_truthy (extract_date p (rec_text rec))); reflexivity.
Qed.

Lemma line_map_add_tokens (key : line_key) (tok : Token)
  (m : list (line_key * list Token)) (k : line_key) (toks : list Token)
  (t : Token) :
  In (k, toks) (line_map_add key tok m) -> In t toks ->
  t = tok \/ exists k' toks', In (k', toks') m /\ In t toks'.
Proof.
  induction m as [|[k0 toks0] rest IH]; cbn [line_map_add].
  - intros [[= <- <-]|[]] [<-|[]]. now left.
  - destruct (line_key_eqb k0 key).
    + intros [[= <- <-]|H] Ht.
      * apply in_app_iff in Ht as [Ht|[<-|[]]]; [|now left].
        right. exists k0, toks0. split; [now left | exact Ht].
      * right. exists k, toks. split; [now right | exact Ht].
    + intros [[= <- <-]|H] Ht.
      * right. exists k0, toks0. split; [now left | exact Ht].
      * destruct (IH H Ht) as [->|(k' & toks' & H1 & H2)]; [now left|].
        right. exists k', toks'. split; [now right | exact H2].
Qed.

Lemma build_line_map_tokens (tokens : list Token) (k : line_key)
  (toks : list Token) (t : Token) :
  In (k, toks) (build_line_map tokens) -> In t toks -> In t tokens.
Proof.
  unfold build_line_map.
  assert (G : forall tokens m,
             In (k, toks)
               (fold_left
                  (fun m tok =>
                     line_map_add
                       (t_block_num tok, t_par_num tok, t_line_num tok) tok m)
                  tokens m) ->
             In t toks ->
             In t tokens \/ exists k' toks', In (k', toks') m /\ In t toks').
  { clear tokens. induction tokens as [|tok tokens IH]; intros m;
      cbn [fold_left].
    - intros H Ht. right. eauto.
    - intros H Ht. destruct (IH _ H Ht) as [H1|(k' & toks' & H1 & H2)].
      + left. now right.
      + destruct (@line_map_add_tokens _ _ _ _ _ _ H1 H2)
          as [->|(k2 & toks2 & H3 & H4)].
        * left. now left.
        * right. eauto. }
  intros H Ht. destruct (@G _ _ H Ht) as [H1|(k' & toks' & [] & _)].
  exact H1.
Qed.

Lemma join_space_chars (parts : list str) (c : ascii) :
  In c (join_space parts) ->
  c = " "%char \/ exists q, In q parts /\ In c q.
Proof.
  destruct parts as [|q0 rest]; [intros []|]. cbn [join_space].
  rewrite in_app_iff. intros [H|H].
  - right. exists q0. split; [now left | exact H].
  - apply in_flat_map in H as (q & Hq & [<-|H]); [now left|].
    right. exists q. split; [now right | exact H].
Qed.

Lemma norm_chars (s : str) (c : ascii) :
  In c (_norm s) -> c = " "%char \/ In c s.
Proof.
  unfold _norm. intros H. apply strip_incl in H.
  apply sub_chars in H as [H|H]; [now right|].
  vm_compute in H. destruct H as [<-|[]]. now left.
Qed.

Lemma line_info_chars (idx : nat) (k : line_key) (toks : list Token)
  (c : ascii) :
  In c (li_text (line_info (idx, (k, toks)))) ->
  c = " "%char \/ exists t, In t toks /\ In c (t_text t).
Proof.
  cbn [line_info li_text]. intros H.
  apply join_space_chars in H as [H|(q & Hq & Hc)]; [now left|].
  apply filter_In in Hq as [Hq _].
  apply in_map_iff in Hq as (t & <- & Ht).
  apply norm_chars in Hc as [Hc|Hc]; [now left|].
  right. exists t. split; [|exact Hc].
  eapply Permutation_in; [|exact Ht].
  apply Permutation_sym, sorted_by_perm.
Qed.

Lemma flat_map_nil (A B : Type) (f : A -> list B) (l : list A) :
  (forall x, In x l -> f x = []) -> flat_map f l = [].
Proof.
  induction l as [|x t IH]; intros H; cbn [flat_map]; [reflexivity|].
  rewrite (H x) by now left. apply IH. intros y Hy. apply H. now right.
Qed.

Lemma finditer_no_digit (s : str) :
  (forall c, In c s -> is_digit c = false) ->
  finditer AMT_pre AMT_grp s = [].
Proof.
  intros Hno. destruct (finditer AMT_pre AMT_grp s) as [|g l] eqn:E;
    [reflexivity|].
  assert (Hg : In g (finditer AMT_pre AMT_grp s)) by (rewrite E; now left).
  apply finditer_inside in Hg as [Hin Hd].
  destruct (Hd _ amt_needs_digit) as (c & Hc & Hdc).
  rewrite (Hno c) in Hdc; [discriminate|]. eapply inside_incl; eauto.
Qed.

(** X20. When no word box holds a digit, the layout-aware extractor finds
    no amount on any line and returns what the text-only extractor reads
    from the full text. *)
Theorem layout_without_digits_falls_back (words : list Word)
  (full_text : str) :
  (forall w c, In w words -> In c (w_text w) -> is_digit c = false) ->
  extract_total_layout words full_text = extract_total_textonly full_text.
Proof.
  intros Hno. unfold extract_total_layout.
  destruct words as [|w0 ws]; [reflexivity|].
  set (words := w0 :: ws) in *.
  set (tokens := flat_map _ words).
  assert (Htok : forall t c, In t tokens -> In c (t_text t) ->
                             is_digit c = false).
  { intros t c Ht Hc. unfold tokens in Ht.
    apply in_flat_map in Ht as (w & Hw & Ht).
    unfold token_of_word in Ht.
    destruct (strip (w_text w)) as [|x s] eqn:Es; [contradiction|].
    destruct Ht as [<-|[]]. cbn [t_text] in Hc. rewrite <- Es in Hc.
    apply strip_incl in Hc. eauto. }
  destruct tokens as [|t0 ts] eqn:Et; [reflexivity|]. rewrite <- Et in *.
  cbv zeta.
  set (ordered := sorted_by ZZ_leb _ (build_line_map tokens)).
  set (line_infos := map line_info (enumerate ordered)).
  assert (Hinfo : forall info c, In info line_infos -> In c (li_text info) ->
                                 is_digit c = false).
  { intros info c Hi Hc. unfold line_infos in Hi.
    apply in_map_iff in Hi as ([idx [k toks]] & <- & Hi).
    apply line_info_chars in Hc as [->|(t & Ht & Hc)]; [reflexivity|].
    apply in_enumerate_in in Hi.
    assert (Hk : In (k, toks) (build_line_map tokens)).
    { eapply Permutation_in; [|exact Hi].
      apply Permutation_sym, sorted_by_perm. }
    eapply Htok; [|exact Hc]. eapply build_line_map_tokens; eauto. }
  assert (Hc : flat_map line_candidates line_infos = []).
  { apply flat_map_nil. intros info Hi. unfold line_candidates.
    destruct (li_text info) as [|x s] eqn:Ex; [reflexivity|].
    rewrite finditer_no_digit; [reflexivity|].
    intros c Hc. apply (Hinfo info); [exact Hi|]. now rewrite Ex. }
  destruct line_infos as [|i0 more]; [reflexivity|].
  rewrite Hc. reflexivity.
Qed.

Lemma layout_without_digits_falls_back_witness :
  extract_total_layout
    [mkWord "TOTAL" (Fin 90) 10 10 50 12 1 1 1 1;
     mkWord "due" (Fin 90) 70 10 30 12 1 1 1 2] two_amounts_text
  = extract_total_textonly two_amounts_text.
Proof.
  apply layout_without_digits_falls_back.
  intros w c [<-|[<-|[]]] H; vm_compute in H;
    repeat (destruct H as [<-|H]; [reflexivity|]); contradiction.
Defined.

(* ================================================================== *)
(** * The store read from a text *)
(* ================================================================== *)

Lemma store_of_line_shape (line s : str) :
  store_of_line line = Some s ->
  strip s = s /\ ~ In "|"%char s.
Proof.
  unfold store_of_line.
  destruct (_ <? _)%nat; [discriminate|].
  destruct (any_in SKIP_STORE _); [discriminate|].
  destruct (matches _word _); [|discriminate].
  intros E.
  apply (f_equal (fun o => match o with Some x => x | None => [] end)) in E.
  cbv beta iota in E. subst s. split.
  - unfold _norm. apply strip_idempotent.
  - intros H. apply norm_chars in H as [H|H]; [discriminate|].
    apply replace_chars in H as [H|H];
      [|vm_compute in H; intuition discriminate].
    revert H. apply replace_removes. vm_compute. intuition discriminate.
Qed.

(** X21. A store [extract_store] returns is not empty, holds a letter, has
    no white space at either end and holds no vertical bar. *)
Theorem extract_store_shape (text s : str) :
  extract_store text = Some s ->
  s <> [] /\
  (exists c, In c s /\ is_alpha c = true) /\
  strip s = s /\
  ~ In "|"%char s.
Proof.
  intros H. pose proof (extract_store_lettered text) as L.
  rewrite H in L. cbn [lettered] in L.
  split; [|split; [exact L|]].
  - destruct L as (c & Hc & _). intros ->. contradiction.
  - unfold extract_store in H.
    apply first_some_some in H as (line & _ & H).
    now apply store_of_line_shape in H.
Qed.

Lemma extract_store_shape_witness :
  extract_store (lit "| ACME | STORE
TOTAL 5.00") = Some (lit "ACME I STORE") /\
  lit "ACME I STORE" <> [] /\
  (exists c, In c (lit "ACME I STORE") /\ is_alpha c = true) /\
  strip (lit "ACME I STORE") = lit "ACME I STORE" /\
  ~ In "|"%char (lit "ACME I STORE").
Proof.
  assert (H : extract_store (lit "| ACME | STORE
TOTAL 5.00") = Some (lit "ACME I STORE")) by (vm_compute; reflexivity).
  split; [exact H|].
  exact (extract_store_shape _ H).
Defined.

(* ================================================================== *)
(** * Every amount matched is a number *)
(* ================================================================== *)

Lemma span_refl (a : pos) : span a a = [].
Proof. apply span_of. reflexivity. Qed.

Lemma span_trans (P P' : ascii -> bool) (a m b : pos) :
  moved P a m -> moved P' m b -> span a b = span a m ++ span m b.
Proof.
  intros H1 H2. apply moved_snd in H1, H2.
  apply span_of. rewrite H1 at 1. rewrite H2 at 1. now rewrite app_assoc.
Qed.

Lemma star_iter_lang (L : str -> Prop) (P : ascii -> bool)
  (step : pos -> list pos) :
  (forall a b, In b (step a) -> moved P a b /\ L (span a b)) ->
  forall n a b,
    In b (star_iter step n a) ->
    moved P a b /\ exists ws, span a b = List.concat ws /\ Forall L ws.
Proof.
  intros Hstep. induction n as [|n IH]; intros a b; cbn [star_iter].
  - intros [<-|[]]. split; [apply moved_refl|].
    exists []. split; [apply span_refl | constructor].
  - rewrite in_app_iff, in_flat_map. intros [(m & Hm & Hb)|[<-|[]]].
    + destruct (_ <? _)%nat; [|contradiction].
      destruct (Hstep _ _ Hm) as [M1 L1].
      destruct (IH _ _ Hb) as [M2 (ws & E & F)].
      split; [eapply moved_trans; eauto|].
      exists (span a m :: ws). split; [|now constructor].
      cbn [List.concat]. rewrite <- E. eapply span_trans; eauto.
    + split; [apply moved_refl|].
      exists []. split; [apply span_refl | constructor].
Qed.

Lemma run_lang (r : regex) :
  forall a b, In b (run r a) -> lang r (span a b).
Proof.
  induction r as [|p|r1 IH1 r2 IH2|r1 IH1 r2 IH2|r IH| |]; intros a b Hb;
    cbn [lang].
  - destruct Hb as [<-|[]]. apply span_refl.
  - cbn [run] in Hb. destruct a as [bf [|c t]]; [contradiction|].
    cbn [snd fst] in Hb. destruct (p c) eqn:E; [|contradiction].
    destruct Hb as [<-|[]]. exists c. split; [|exact E].
    apply span_of. reflexivity.
  - cbn [run] in Hb. apply in_flat_map in Hb as (m & Hm & Hb).
    exists (span a m), (span m b). split; [|auto].
    eapply span_trans; eapply run_moved; eauto.
  - cbn [run] in Hb. apply in_app_iff in Hb as [Hb|Hb]; auto.
  - cbn [run] in Hb.
    eapply (@star_iter_lang (lang r) (cls r)) in Hb; [apply Hb|].
    intros x y Hy. split; [now apply run_moved | now apply IH].
  - cbn [run] in Hb. destruct (xorb _ _); [|contradiction].
    destruct Hb as [<-|[]]. apply span_refl.
  - cbn [run] in Hb. destruct (fst a); [|contradiction].
    destruct Hb as [<-|[]]. apply span_refl.
Qed.

Lemma lang_cls (r : regex) :
  forall w, lang r w -> Forall (fun c => cls r c = true) w.
Proof.
  induction r as [|p|r1 IH1 r2 IH2|r1 IH1 r2 IH2|r IH| |]; intros w;
    cbn [lang cls]; try (intros ->; constructor).
  - intros (c & -> & E). constructor; [exact E | constructor].
  - intros (u & v & -> & H1 & H2). apply Forall_app. split.
    + eapply Forall_impl; [|apply IH1; exact H1].
      intros c ->. reflexivity.
    + eapply Forall_impl; [|apply IH2; exact H2].
      intros c ->. apply orb_true_r.
  - intros [H|H].
    + eapply Forall_impl; [|apply IH1; exact H]. intros c ->. reflexivity.
    + eapply Forall_impl; [|apply IH2; exact H].
      intros c ->. apply orb_true_r.
  - intros (ws & -> & F). induction F as [|x l Hx _ IHl]; [constructor|].
    cbn [List.concat]. apply Forall_app. split; [now apply IH | exact IHl].
Qed.

Lemma match_at_lang (pre grp : regex) (st a b : pos) :
  match_at pre grp st = Some (a, b) -> lang grp (span a b).
Proof.
  unfold match_at. intros H. apply hd_error_in in H.
  apply in_flat_map in H as (m & Hm & Hb).
  apply in_map_iff in Hb as (b' & E & Hb). injection E as -> ->.
  now apply run_lang.
Qed.

Lemma search_group_lang (pre grp : regex) (s g : str) :
  search_group pre grp s = Some g -> lang grp g.
Proof.
  unfold search_group, search.
  destruct (search_go pre grp [] s) as [m|] eqn:E; [|discriminate].
  intros [= <-]. revert E. generalize (@nil ascii).
  induction s as [|c t IH]; intros before; cbn [search_go].
  - destruct (match_at _ _ _) as [[a b]|] eqn:E; [|discriminate].
    intros [= <-]. cbn [group1]. eapply match_at_lang; exact E.
  - destruct (match_at _ _ _) as [[a b]|] eqn:E.
    + intros [= <-]. cbn [group1]. eapply match_at_lang; exact E.
    + apply IH.
Qed.

Lemma finditer_lang (pre grp : regex) (s g : str) :
  In g (finditer pre grp s) -> lang grp g.
Proof.
  unfold finditer. generalize 0%nat, (@nil ascii).
  induction s as [|c t IH]; intros skip before; cbn [finditer_go];
    [contradiction|].
  destruct skip as [|k]; [|apply IH].
  destruct (match_at _ _ _) as [[a b]|] eqn:E; [|apply IH].
  intros [<-|H]; [eapply match_at_lang; exact E | eapply IH; exact H].
Qed.

Lemma replace_comma (s : str) :
  replace "," "" s = filter (fun c => negb (Ascii.eqb ","%char c)) s.
Proof.
  change (replace "," "" s) with (replace_go [","%char] [] 0 s).
  induction s as [|c t IH]; [reflexivity|].
  cbn [replace_go startswith filter List.length Nat.sub].
  destruct (Ascii.eqb ","%char c); cbn [andb negb app]; now rewrite IH.
Qed.

Lemma digit_facts (c : ascii) :
  is_digit c = true ->
  Ascii.eqb ","%char c = false /\ Ascii.eqb c "."%char = false /\
  Ascii.eqb c "-"%char = false /\ Ascii.eqb c "+"%char = false.
Proof.
  destruct c as [[] [] [] [] [] [] [] []]; intros H; try discriminate H;
    repeat split; reflexivity.
Qed.

Lemma digits_value_some (s : str) :
  Forall (fun c => is_digit c = true) s ->
  forall acc, exists n, digits_value acc s = Some n.
Proof.
  induction 1 as [|c t Hc _ IH]; intros acc; cbn [digits_value]; [eauto|].
  rewrite Hc. apply IH.
Qed.

Lemma split_at_dot_digits (ds rest : str) :
  Forall (fun c => is_digit c = true) ds ->
  split_at_dot (ds ++ "."%char :: rest) = (ds, Some rest).
Proof.
  induction 1 as [|c t Hc _ IH]; cbn [app split_at_dot]; [reflexivity|].
  destruct (digit_facts _ Hc) as (_ & -> & _). now rewrite IH.
Qed.

(** A digit, then digits and commas, a full stop and two digits: a number
    once the commas are taken out. *)
Lemma amount_value_some (d0 : ascii) (x : str) (d1 d2 : ascii) :
  is_digit d0 = true ->
  Forall (fun c => is_digit c = true \/ c = ","%char) x ->
  is_digit d1 = true -> is_digit d2 = true ->
  exists v, amount_value ((d0 :: x) ++ ["."%char; d1; d2]) = Some v.
Proof.
  intros H0 Hx H1 H2. unfold amount_value. rewrite replace_comma.
  rewrite filter_app. cbn [filter].
  destruct (digit_facts _ H0) as (-> & _ & Em & Ep).
  destruct (digit_facts _ H1) as (-> & _).
  destruct (digit_facts _ H2) as (-> & _).
  change (Ascii.eqb ","%char "."%char) with false. cbn [negb].
  set (ds := filter _ x).
  assert (Hds : Forall (fun c => is_digit c = true) ds).
  { apply Forall_forall. intros c Hc. apply filter_In in Hc as [Hc Hn].
    rewrite Forall_forall in Hx. destruct (Hx c Hc) as [H| ->]; [exact H|].
    discriminate. }
  cbn [app to_float]. rewrite Em, Ep. unfold unsigned_float.
  change (d0 :: ds ++ ["."%char; d1; d2])
    with ((d0 :: ds) ++ "."%char :: [d1; d2]).
  rewrite split_at_dot_digits by (constructor; assumption).
  cbn [app].
  destruct (@digits_value_some (d0 :: ds ++ [d1; d2])) with (acc := 0%Z)
    as (n & ->).
  - constructor; [exact H0|]. apply Forall_app. split; [exact Hds|].
    repeat constructor; assumption.
  - eauto.
Qed.

Lemma lang_seq (r1 r2 : regex) (w : str) :
  lang (Seq r1 r2) w -> exists u v, w = u ++ v /\ lang r1 u /\ lang r2 v.
Proof. exact (fun H => H). Qed.

Lemma lang_chr (p : ascii -> bool) (w : str) :
  lang (Chr p) w -> exists c, w = [c] /\ p c = true.
Proof. exact (fun H => H). Qed.

Lemma lang_eps (w : str) : lang Eps w -> w = [].
Proof. exact (fun H => H). Qed.

Lemma amt_tail_lang (t : str) :
  lang (Seq (Lit ".") (Exactly Digit 2)) t ->
  exists d1 d2, t = ["."%char; d1; d2] /\
                is_digit d1 = true /\ is_digit d2 = true.
Proof.
  intros H. apply lang_seq in H as (u & v & -> & Hu & Hv).
  change (Lit ".") with (Chr (Ascii.eqb "."%char)) in Hu.
  apply lang_chr in Hu as (c & -> & Hc). apply Ascii.eqb_eq in Hc. subst c.
  change (Exactly Digit 2) with (Seq Digit (Seq Digit Eps)) in Hv.
  apply lang_seq in Hv as (x1 & v1 & -> & Hx1 & Hv1).
  apply lang_chr in Hx1 as (d1 & -> & H1).
  apply lang_seq in Hv1 as (x2 & v2 & -> & Hx2 & Hv2).
  apply lang_chr in Hx2 as (d2 & -> & H2).
  apply lang_eps in Hv2. subst v2. exists d1, d2. auto.
Qed.

Lemma digit_head_lang (r : regex) (u : str) :
  lang (Seq Digit r) u ->
  exists d0 rest, u = d0 :: rest /\ is_digit d0 = true.
Proof.
  intros H. apply lang_seq in H as (a & b & -> & Ha & _).
  apply lang_chr in Ha as (d0 & -> & H0). exists d0, b. auto.
Qed.

Lemma amt_lang_value (g : str) :
  lang AMT_grp g -> exists v, amount_value g = Some v.
Proof.
  intros H.
  change AMT_grp
    with (Alt (Seq (Rep Digit 1 2)
                 (Seq (Star (Seq (Lit ",") (Exactly Digit 3)))
                    (Seq (Lit ".") (Exactly Digit 2))))
              (Seq (Plus Digit) (Seq (Lit ".") (Exactly Digit 2)))) in H.
  destruct H as [H|H].
  - apply lang_seq in H as (u & w & -> & Hu & H).
    apply lang_seq in H as (v & t & -> & Hv & Ht).
    apply amt_tail_lang in Ht as (d1 & d2 & -> & H1 & H2).
    pose proof (lang_cls _ _ Hu) as Cu. pose proof (lang_cls _ _ Hv) as Cv.
    change (Rep Digit 1 2)
      with (Seq (Seq Digit Eps) (Upto Digit 2)) in Hu.
    apply lang_seq in Hu as (u1 & u2 & -> & Hu1 & _).
    apply digit_head_lang in Hu1 as (d0 & rest & -> & H0).
    rewrite app_assoc. cbn [app] in *.
    apply Forall_inv_tail in Cu.
    apply amount_value_some; try assumption.
    apply Forall_app. split.
    + eapply Forall_impl; [|exact Cu]. cbn [cls Rep Exactly Upto Opt Digit].
      intros c Hc. left.
      destruct (is_digit c); [reflexivity | discriminate Hc].
    + eapply Forall_impl; [|exact Cv].
      unfold Lit. change (lit ",") with [","%char].
      cbn [cls map Seqs Exactly Digit]. intros c Hc.
      destruct (is_digit c); [now left|]. right.
      rewrite !orb_false_r in Hc. apply Ascii.eqb_eq in Hc. now subst c.
  - apply lang_seq in H as (u & t & -> & Hu & Ht).
    apply amt_tail_lang in Ht as (d1 & d2 & -> & H1 & H2).
    pose proof (lang_cls _ _ Hu) as Cu.
    unfold Plus in Hu.
    apply digit_head_lang in Hu as (d0 & rest & -> & H0).
    cbn [app] in *. apply Forall_inv_tail in Cu.
    apply amount_value_some; try assumption.
    eapply Forall_impl; [|exact Cu]. cbn [cls Plus Digit]. intros c Hc.
    left. destruct (is_digit c); [reflexivity | discriminate Hc].
Qed.

(** X22. Every amount the pattern [AMT] captures, whether found by
    [search] or by [finditer], is read as a number: the conversion to
    [float] never fails on it. *)
Theorem amt_match_is_a_number (s g : str) :
  search_group AMT_pre AMT_grp s = Some g \/
  In g (finditer AMT_pre AMT_grp s) ->
  exists v, amount_value g = Some v /\ 0 <= v.
Proof.
  intros H.
  assert (L : lang AMT_grp g).
  { destruct H as [H|H]; [eapply search_group_lang | eapply finditer_lang];
      exact H. }
  destruct (amt_lang_value L) as (v & Hv). exists v. split; [exact Hv|].
  eapply amount_value_nonneg; [|exact Hv]. now apply lang_cls.
Qed.

Lemma amt_match_is_a_number_witness :
  exists v, amount_value (lit "1,234.50") = Some v /\ 0 <= v.
Proof.
  apply (@amt_match_is_a_number (lit "TOTAL PHP 1,234.50") (lit "1,234.50")).
  left. vm_compute. reflexivity.
Defined.
